(** * Chain of Responsibility: the handler pipeline of
    [behavioral_patterns/chain_of_responsibility/main.cpp]

    The handlers of the program are heap objects that point at each other
    through [std::shared_ptr] successor links, and [SetNext] overwrites such a
    link in place.  The embedding therefore keeps an explicit store of
    handler objects indexed by address, and every member function is a
    computation over that store. *)

From Stdlib Require Import Ascii String.
From stdpp Require Import base option list gmap strings.

Open Scope string_scope.
Open Scope list_scope.
Open Scope nat_scope.
Open Scope stdpp_scope.

(** ** Strings of the program *)

(** The character written [\n] in the C++ literals. *)
Definition LF : string := String "010"%char "".

(** ** Objects and the store *)

(** Addresses of handler objects. *)
Definition loc := positive.

(** A [std::shared_ptr<Handler>]: [None] is [nullptr]. *)
Definition ptr := option loc.

(** The dynamic type of a handler object.  [AbstractHandler] overrides both
    pure virtual functions of [Handler], so it can be instantiated too. *)
Inductive class : Type :=
  | AbstractHandler
  | MonkeyHandler
  | SquirrelHandler
  | DogHandler.

Global Instance class_eq_dec : EqDecision class.
Proof. solve_decision. Defined.

(** An object: its dynamic type and the private field [next_handler_]. *)
Record object : Type := Object {
  dyn_type : class;
  next_handler_ : ptr
}.

(** The program state: the heap of handler objects and the text written to
    [std::cout] so far. *)
Record state : Type := State {
  heap : gmap loc object;
  cout : string
}.

(** ** Computations

    A call either returns a value and a new state, or has not returned within
    the given recursion budget, or dereferences something that is not an
    object (which [shared_ptr] ownership rules out on stores the program can
    build, and is kept apart from running out of budget). *)
Inductive outcome (A : Type) : Type :=
  | Done (a : A) (s : state)
  | OutOfFuel
  | Fault.
Arguments Done {A} a s.
Arguments OutOfFuel {A}.
Arguments Fault {A}.

Definition M (A : Type) : Type := state → outcome A.

Definition ret {A} (a : A) : M A := λ s, Done a s.

Definition bind {A B} (m : M A) (f : A → M B) : M B :=
  λ s, match m s with
       | Done a s' => f a s'
       | OutOfFuel => OutOfFuel
       | Fault => Fault
       end.

Notation "x <- m ;; k" := (bind m (λ x, k))
  (at level 100, m at next level, right associativity, only parsing).
Notation "m ;;; k" := (bind m (λ _, k))
  (at level 100, right associativity, only parsing).

(** Reading the object behind [this]. *)
Definition deref (this : loc) : M object :=
  λ s, match heap s !! this with
       | Some o => Done o s
       | None => Fault
       end.

(** Assigning the field [next_handler_] of the object behind [this]. *)
Definition store_next (this : loc) (handler : ptr) : M unit :=
  λ s, match heap s !! this with
       | Some o =>
           Done tt (State (<[this := Object (dyn_type o) handler]> (heap s))
                          (cout s))
       | None => Fault
       end.

(** [std::cout << text]. *)
Definition print (text : string) : M unit :=
  λ s, Done tt (State (heap s) (cout s +:+ text)).

(** Budget exhausted: the call has not returned yet. *)
Definition diverge {A} : M A := λ _, OutOfFuel.

(** [std::make_shared<C>()]: a new object at an unused address, built by the
    constructor [AbstractHandler() : next_handler_(nullptr)]. *)
Definition make_shared (c : class) : M loc :=
  λ s, let p := fresh (dom (heap s)) in
       Done p (State (<[p := Object c None]> (heap s)) (cout s)).

(** ** Member functions *)

(** [AbstractHandler::SetNext]. *)
Definition SetNext (this : loc) (handler : ptr) : M ptr :=
  store_next this handler ;;;
  ret handler.

(** A call through a [shared_ptr]: calling through [nullptr] is a fault. *)
Definition arrow {A} (p : ptr) (method : loc → M A) : M A :=
  match p with
  | Some q => method q
  | None => λ _, Fault
  end.

Section Dispatch.
(** [virt] stands for the virtual call [p->Handle(request)]. *)
Variable virt : loc → string → M string.

(** [AbstractHandler::Handle]: forward if linked, else the empty string. *)
Definition AbstractHandler_Handle (this : loc) (request : string) : M string :=
  o <- deref this ;;
  match next_handler_ o with
  | Some next => virt next request
  | None => ret ""
  end.

Definition MonkeyHandler_Handle (this : loc) (request : string) : M string :=
  if String.eqb request "Banana"
  then ret ("Monkey: I'll eat the " +:+ request +:+ "." +:+ LF)
  else AbstractHandler_Handle this request.

Definition SquirrelHandler_Handle (this : loc) (request : string) : M string :=
  if String.eqb request "Nut"
  then ret ("Squirrel: I'll eat the " +:+ request +:+ "." +:+ LF)
  else AbstractHandler_Handle this request.

Definition DogHandler_Handle (this : loc) (request : string) : M string :=
  if String.eqb request "MeatBall"
  then ret ("Dog: I'll eat the " +:+ request +:+ "." +:+ LF)
  else AbstractHandler_Handle this request.
End Dispatch.

(** The virtual function [Handle]: the override of the dynamic type of
    [this] runs.  [fuel] bounds the depth of nested calls. *)
Fixpoint Handle (fuel : nat) (this : loc) (request : string) : M string :=
  match fuel with
  | 0 => diverge
  | S fuel' =>
      o <- deref this ;;
      match dyn_type o with
      | AbstractHandler => AbstractHandler_Handle (Handle fuel') this request
      | MonkeyHandler => MonkeyHandler_Handle (Handle fuel') this request
      | SquirrelHandler => SquirrelHandler_Handle (Handle fuel') this request
      | DogHandler => DogHandler_Handle (Handle fuel') this request
      end
  end.

(** ** The client and [main] *)

(** The range-based [for] loop over a vector. *)
Fixpoint for_each {A} (v : list A) (body : A → M unit) : M unit :=
  match v with
  | [] => ret tt
  | x :: v' => body x ;;; for_each v' body
  end.

(** [std::string::empty]. *)
Definition empty_string (s : string) : bool :=
  match s with
  | EmptyString => true
  | String _ _ => false
  end.

(** [ClientCode]. *)
Definition ClientCode (fuel : nat) (handler : ptr) : M unit :=
  let food := ["Nut"; "Banana"; "Cup of coffee"] in
  for_each food (λ f,
    print "Client: Who wants a " ;;; print f ;;; print ("?" +:+ LF) ;;;
    result <- arrow handler (λ h, Handle fuel h f) ;;
    if negb (empty_string result)
    then print "  " ;;; print result
    else print "  " ;;; print f ;;; print (" was left untouched." +:+ LF)).

(** The fluent expression [a->SetNext(b)->SetNext(c)]: the second call goes
    through the pointer that the first call returned. *)
Definition fluent_SetNext (a b c : loc) : M ptr :=
  linked <- SetNext a (Some b) ;;
  arrow linked (λ h, SetNext h (Some c)).

(** The first four statements of [main]: three handlers are built and linked
    by [monkey->SetNext(squirrel)->SetNext(dog)]. *)
Definition main_chain : M (loc * loc * loc) :=
  monkey <- make_shared MonkeyHandler ;;
  squirrel <- make_shared SquirrelHandler ;;
  dog <- make_shared DogHandler ;;
  fluent_SetNext monkey squirrel dog ;;;
  ret (monkey, squirrel, dog).

(** [main]. *)
Definition main (fuel : nat) : M Z :=
  handlers <- main_chain ;;
  let '(monkey, squirrel, dog) := handlers in
  print ("Chain: Monkey > Squirrel > Dog" +:+ LF +:+ LF) ;;;
  ClientCode fuel (Some monkey) ;;;
  print LF ;;;
  print ("Subchain: Squirrel > Dog" +:+ LF +:+ LF) ;;;
  ClientCode fuel (Some squirrel) ;;;
  ret 0%Z.

(** The state in which the program starts. *)
Definition initial : state := State ∅ "".

(** ** Predicates, descriptions and chains *)

(** The literal that the override of each class compares the request with;
    [AbstractHandler::Handle] compares with nothing. *)
Definition literal (c : class) : option string :=
  match c with
  | AbstractHandler => None
  | MonkeyHandler => Some "Banana"
  | SquirrelHandler => Some "Nut"
  | DogHandler => Some "MeatBall"
  end.

(** The local predicate of a handler of class [c]: the [if] condition of its
    override, [request == literal]. *)
Definition matches (c : class) (request : string) : bool :=
  match literal c with
  | Some l => String.eqb request l
  | None => false
  end.

(** The text a handler of class [c] returns when its predicate holds. *)
Definition description (c : class) (request : string) : string :=
  match c with
  | AbstractHandler => ""
  | MonkeyHandler => "Monkey: I'll eat the " +:+ request +:+ "." +:+ LF
  | SquirrelHandler => "Squirrel: I'll eat the " +:+ request +:+ "." +:+ LF
  | DogHandler => "Dog: I'll eat the " +:+ request +:+ "." +:+ LF
  end.

(** The unhandled sentinel: the value-initialised [std::string] of
    [return {};]. *)
Definition unhandled : string := "".

(** Whether the handler stored at [p] matches the request. *)
Definition handler_matches (σ : gmap loc object) (p : loc) (request : string) : bool :=
  match σ !! p with
  | Some o => matches (dyn_type o) request
  | None => false
  end.

(** [chain σ p l]: following [next_handler_] from [p] visits exactly the
    addresses [l], in this order, and then reaches [nullptr].  Such a list
    exists only when no cycle is reachable from [p]. *)
Inductive chain (σ : gmap loc object) : loc → list loc → Prop :=
  | chain_end p o :
      σ !! p = Some o → next_handler_ o = None → chain σ p [p]
  | chain_next p o q l :
      σ !! p = Some o → next_handler_ o = Some q → chain σ q l →
      chain σ p (p :: l).

(** The same walk as a function, for at most [fuel] handlers. *)
Fixpoint walk (fuel : nat) (σ : gmap loc object) (p : loc) : option (list loc) :=
  match fuel with
  | 0 => None
  | S fuel' =>
      match σ !! p with
      | None => None
      | Some o =>
          match next_handler_ o with
          | None => Some [p]
          | Some q => cons p <$> walk fuel' σ q
          end
      end
  end.

(** The dynamic types met along a list of addresses. *)
Definition classes (σ : gmap loc object) (l : list loc) : list class :=
  omap (λ p, dyn_type <$> σ !! p) l.

(** First match wins: the result determined by the classes in link order. *)
Fixpoint dispatch (cs : list class) (request : string) : string :=
  match cs with
  | [] => unhandled
  | c :: cs' =>
      if matches c request then description c request
      else dispatch cs' request
  end.

(** The number of handlers asked before the decision is reached. *)
Fixpoint asked (cs : list class) (request : string) : nat :=
  match cs with
  | [] => 0
  | c :: cs' => if matches c request then 1 else S (asked cs' request)
  end.

(** The successor link of the handler at [p], if [p] is a handler. *)
Definition successor (σ : gmap loc object) (p : loc) : option ptr :=
  next_handler_ <$> σ !! p.

(** The answer of a handler of class [c] that has no successor. *)
Definition alone (c : class) (request : string) : string :=
  if matches c request then description c request else unhandled.

(** Whether a successor is installed at [p]. *)
Definition has_successor (σ : gmap loc object) (p : loc) : bool :=
  match σ !! p with
  | Some o => match next_handler_ o with Some _ => true | None => false end
  | None => false
  end.

(** The number of successor links installed among the handlers [l]. *)
Definition links (σ : gmap loc object) (l : list loc) : nat :=
  length (List.filter (has_successor σ) l).

(** A computation that leaves the heap as it finds it (it may print). *)
Definition keeps_heap {A} (m : M A) : Prop :=
  ∀ s a s', m s = Done a s' → heap s' = heap s.

(** ** Concrete stores *)

(** Three handlers as [main] builds them, before any link is set. *)
Definition unlinked : gmap loc object :=
  <[3%positive := Object DogHandler None]>
    (<[2%positive := Object SquirrelHandler None]>
       (<[1%positive := Object MonkeyHandler None]> ∅)).

(** The heap of [main] once [monkey->SetNext(squirrel)->SetNext(dog)] has
    run: Monkey at 1, Squirrel at 2, Dog at 3. *)
Definition zoo : gmap loc object :=
  <[2%positive := Object SquirrelHandler (Some 3%positive)]>
    (<[1%positive := Object MonkeyHandler (Some 2%positive)]> unlinked).

(** A handler that was linked to itself. *)
Definition looped : gmap loc object :=
  <[1%positive := Object MonkeyHandler (Some 1%positive)]> ∅.

(** ** Paths, well-formed heaps and the text of the client *)

(** [reaches σ p l q]: following [next_handler_] from [p] passes the handlers
    [l], in this order, and arrives at [q].  Unlike a chain, a path need not
    end at [nullptr], and it may go round a cycle. *)
Inductive reaches (σ : gmap loc object) : loc → list loc → loc → Prop :=
  | reaches_here p : reaches σ p [] p
  | reaches_step p o p' l q :
      σ !! p = Some o → next_handler_ o = Some p' → reaches σ p' l q →
      reaches σ p (p :: l) q.

(** Whether the successor of an object is [nullptr] or an object of the
    heap. *)
Definition link_ok (σ : gmap loc object) (o : object) : bool :=
  match next_handler_ o with
  | Some q => bool_decide (is_Some (σ !! q))
  | None => true
  end.

(** The invariant of [shared_ptr] links: no object points outside the
    heap. *)
Definition closed (σ : gmap loc object) : Prop :=
  map_Forall (λ _ o, link_ok σ o = true) σ.

(** Whether [handler] is [nullptr] or points at an object of the heap. *)
Definition valid_ptr (σ : gmap loc object) (handler : ptr) : Prop :=
  match handler with
  | Some q => is_Some (σ !! q)
  | None => True
  end.

(** The vector [food] of [ClientCode]. *)
Definition food : list string := ["Nut"; "Banana"; "Cup of coffee"].

(** The body of the loop of [ClientCode], for the item [f]. *)
Definition serve (fuel : nat) (handler : ptr) (f : string) : M unit :=
  print "Client: Who wants a " ;;; print f ;;; print ("?" +:+ LF) ;;;
  result <- arrow handler (λ h, Handle fuel h f) ;;
  if negb (empty_string result)
  then print "  " ;;; print result
  else print "  " ;;; print f ;;; print (" was left untouched." +:+ LF).

(** What [ClientCode] prints for one item when it enters a chain that
    carries the classes [cs]. *)
Definition answer (cs : list class) (f : string) : string :=
  "Client: Who wants a " +:+ f +:+ "?" +:+ LF +:+ "  " +:+
  (if empty_string (dispatch cs f)
   then f +:+ " was left untouched." +:+ LF
   else dispatch cs f).

(** What [ClientCode] prints for the items [v], in their order. *)
Fixpoint report (cs : list class) (v : list string) : string :=
  match v with
  | [] => ""
  | f :: v' => answer cs f +:+ report cs v'
  end.

(** What [main] prints. *)
Definition main_text : string :=
  "Chain: Monkey > Squirrel > Dog" +:+ LF +:+ LF +:+
  report [MonkeyHandler; SquirrelHandler; DogHandler] food +:+
  LF +:+
  "Subchain: Squirrel > Dog" +:+ LF +:+ LF +:+
  report [SquirrelHandler; DogHandler] food.

(** ** Basic facts *)

Lemma Handle_unfold fuel this request s o :
  heap s !! this = Some o →
  Handle (S fuel) this request s =
    if matches (dyn_type o) request
    then Done (description (dyn_type o) request) s
    else match next_handler_ o with
         | Some next => Handle fuel next request s
         | None => Done unhandled s
         end.
Proof.
  intros Hthis. cbn [Handle]. unfold bind at 1, deref at 1. rewrite Hthis.
  destruct o as [c nxt]; cbn [dyn_type next_handler_].
  destruct c; unfold matches; cbn [literal description];
    unfold MonkeyHandler_Handle, SquirrelHandler_Handle, DogHandler_Handle;
    try destruct (String.eqb request _); try reflexivity;
    unfold AbstractHandler_Handle, bind, deref; rewrite Hthis;
    cbn [next_handler_]; destruct nxt; reflexivity.
Qed.

Lemma Handle_unallocated fuel this request s :
  heap s !! this = None → Handle (S fuel) this request s = Fault.
Proof.
  intros Hthis. cbn [Handle]. unfold bind, deref. by rewrite Hthis.
Qed.

(** [Handle] only reads the state. *)
Lemma Handle_reads fuel : ∀ this request s result s',
  Handle fuel this request s = Done result s' → s' = s.
Proof.
  induction fuel as [|fuel IH]; intros this request s result s' Hrun.
  - discriminate.
  - destruct (heap s !! this) as [o|] eqn:Hthis.
    + rewrite (Handle_unfold _ _ _ _ _ Hthis) in Hrun.
      destruct (matches _ _); [congruence|].
      destruct (next_handler_ o); [eauto | congruence].
    + by rewrite Handle_unallocated in Hrun.
Qed.

(** A larger budget does not change a result. *)
Lemma Handle_fuel_mono fuel : ∀ fuel' this request s result s',
  fuel ≤ fuel' →
  Handle fuel this request s = Done result s' →
  Handle fuel' this request s = Done result s'.
Proof.
  induction fuel as [|fuel IH]; intros fuel' this request s result s' Hle Hrun.
  - discriminate.
  - destruct fuel' as [|fuel']; [lia|].
    destruct (heap s !! this) as [o|] eqn:Hthis.
    + rewrite (Handle_unfold fuel _ _ _ _ Hthis) in Hrun.
      rewrite (Handle_unfold fuel' _ _ _ _ Hthis).
      destruct (matches _ _); [done|].
      destruct (next_handler_ o); [|done]. apply IH; [lia|done].
    + by rewrite Handle_unallocated in Hrun.
Qed.

(** On a self-loop a request that is not matched is forwarded for ever. *)
Lemma Handle_self_loop s this o request :
  heap s !! this = Some o → next_handler_ o = Some this →
  matches (dyn_type o) request = false →
  ∀ fuel, Handle fuel this request s = OutOfFuel.
Proof.
  intros Hthis Hnext Hno fuel. induction fuel as [|fuel IH]; [done|].
  by rewrite (Handle_unfold _ _ _ _ _ Hthis), Hno, Hnext.
Qed.

(** ** Chains *)

Lemma classes_cons σ p o l :
  σ !! p = Some o → classes σ (p :: l) = dyn_type o :: classes σ l.
Proof. intros Hp. unfold classes. cbn [omap list_omap]. by rewrite Hp. Qed.

Lemma chain_allocated σ p l : chain σ p l → ∀ q, q ∈ l → is_Some (σ !! q).
Proof.
  induction 1 as [p o Hp Hn | p o q l Hp Hn Hl IH]; intros x Hx.
  - apply list_elem_of_singleton in Hx as ->. eauto.
  - apply elem_of_cons in Hx as [-> | Hx]; eauto.
Qed.

Lemma classes_length σ p l : chain σ p l → length (classes σ l) = length l.
Proof.
  induction 1 as [p o Hp Hn | p o q l Hp Hn Hl IH].
  - by rewrite (classes_cons _ _ _ _ Hp).
  - rewrite (classes_cons _ _ _ _ Hp). cbn. by rewrite IH.
Qed.

(** The chain from an entry point is unique. *)
Lemma chain_unique σ p l : chain σ p l → ∀ l', chain σ p l' → l' = l.
Proof.
  induction 1 as [p o Hp Hn | p o q l Hp Hn Hl IH]; intros l' Hl'.
  - inversion Hl' as [? o' Hp' Hn' | ? o' q' l0 Hp' Hn' Hl0]; subst;
      [done | congruence].
  - inversion Hl' as [? o' Hp' Hn' | ? o' q' l0 Hp' Hn' Hl0]; subst;
      [congruence|].
    f_equal. apply IH. congruence.
Qed.

(** Every handler of a chain is the entry point of the rest of the chain. *)
Lemma chain_drop σ p l :
  chain σ p l → ∀ i e, l !! i = Some e → chain σ e (drop i l).
Proof.
  induction 1 as [p o Hp Hn | p o q l Hp Hn Hl IH]; intros i e Hi.
  - destruct i as [|i]; simplify_eq/=. by eapply chain_end.
  - destruct i as [|i]; simplify_eq/=; [by eapply chain_next | by apply IH].
Qed.

(** A chain visits no handler twice: it is acyclic. *)
Lemma chain_NoDup σ p l : chain σ p l → NoDup l.
Proof.
  induction 1 as [p o Hp Hn | p o q l Hp Hn Hl IH].
  - apply NoDup_singleton.
  - apply NoDup_cons. split; [|done].
    intros Hin. apply list_elem_of_lookup in Hin as [i Hi].
    pose proof (chain_drop _ _ _ Hl _ _ Hi) as Hsuffix.
    pose proof (chain_unique _ _ _ (chain_next _ _ _ _ _ Hp Hn Hl) _ Hsuffix) as Heq.
    apply (f_equal length) in Heq. rewrite length_drop in Heq. cbn in Heq. lia.
Qed.

(** [walk] computes the chain. *)
Lemma walk_chain fuel : ∀ σ p l, walk fuel σ p = Some l → chain σ p l.
Proof.
  induction fuel as [|fuel IH]; intros σ p l Hw; [done|].
  cbn in Hw. destruct (σ !! p) as [o|] eqn:Hp; [|done].
  destruct (next_handler_ o) as [q|] eqn:Hn.
  - destruct (walk fuel σ q) as [l'|] eqn:Hq; simplify_eq/=.
    eapply chain_next; eauto.
  - simplify_eq. by eapply chain_end.
Qed.

Lemma chain_walk σ p l : chain σ p l → walk (length l) σ p = Some l.
Proof.
  induction 1 as [p o Hp Hn | p o q l Hp Hn Hl IH]; cbn.
  - by rewrite Hp, Hn.
  - by rewrite Hp, Hn, IH.
Qed.

Lemma elem_of_drop {A} (l : list A) n x : x ∈ drop n l → x ∈ l.
Proof.
  intros [i Hi]%list_elem_of_lookup. rewrite lookup_drop in Hi.
  apply list_elem_of_lookup. eauto.
Qed.

(** ** [Handle] on a chain *)

(** On a chain, [Handle] returns as soon as the budget covers the handlers
    that have to be asked, and it returns the first match in link order. *)
Lemma Handle_chain s p l request :
  chain (heap s) p l →
  ∀ fuel,
    Handle fuel p request s =
      if decide (asked (classes (heap s) l) request ≤ fuel)
      then Done (dispatch (classes (heap s) l) request) s
      else OutOfFuel.
Proof.
  induction 1 as [p o Hp Hn | p o q l Hp Hn Hl IH]; intros fuel;
    rewrite (classes_cons _ _ _ _ Hp); cbn [asked dispatch].
  - destruct fuel as [|fuel].
    + cbn [classes omap list_omap asked].
      destruct (matches _ _); by rewrite decide_False by lia.
    + rewrite (Handle_unfold _ _ _ _ _ Hp), Hn.
      cbn [classes omap list_omap asked dispatch].
      destruct (matches _ _); by rewrite decide_True by lia.
  - destruct fuel as [|fuel].
    + destruct (matches _ _); by rewrite decide_False by lia.
    + rewrite (Handle_unfold _ _ _ _ _ Hp), Hn.
      destruct (matches _ _); [by rewrite decide_True by lia|].
      rewrite IH. destruct (decide (asked _ _ ≤ fuel)).
      * by rewrite decide_True by lia.
      * by rewrite decide_False by lia.
Qed.

Lemma asked_le cs request : asked cs request ≤ length cs.
Proof.
  induction cs as [|c cs IH]; cbn; [lia|]. destruct (matches _ _); lia.
Qed.

(** With a budget of one call per handler of the chain, [Handle] returns. *)
Lemma Handle_chain_returns s p l request fuel :
  chain (heap s) p l → length l ≤ fuel →
  Handle fuel p request s = Done (dispatch (classes (heap s) l) request) s.
Proof.
  intros Hl Hfuel. rewrite (Handle_chain _ _ _ _ Hl).
  rewrite decide_True; [done|].
  pose proof (asked_le (classes (heap s) l) request).
  rewrite (classes_length _ _ _ Hl) in *. lia.
Qed.

(** A description is never the empty string. *)
Lemma description_nonempty c request :
  matches c request = true → description c request ≠ unhandled.
Proof. destruct c; cbn; done. Qed.

Lemma matches_literal c request :
  matches c request = true ↔ literal c = Some request.
Proof.
  unfold matches. destruct (literal c) as [l|]; [|done].
  rewrite String.eqb_eq. split; congruence.
Qed.

Lemma handler_matches_lookup σ p o request :
  σ !! p = Some o → handler_matches σ p request = matches (dyn_type o) request.
Proof. intros Hp. unfold handler_matches. by rewrite Hp. Qed.

(** Handlers that do not match are skipped. *)
Lemma dispatch_skip σ request l1 l2 :
  (∀ x, x ∈ l1 → handler_matches σ x request = false) →
  dispatch (classes σ (l1 ++ l2)) request = dispatch (classes σ l2) request.
Proof.
  induction l1 as [|x l1 IH]; intros Hno; [done|].
  cbn [app]. destruct (σ !! x) as [o|] eqn:Hx.
  - rewrite (classes_cons _ _ _ _ Hx). cbn [dispatch].
    rewrite <- (handler_matches_lookup _ _ _ _ Hx), Hno by apply list_elem_of_here.
    apply IH. intros y Hy. apply Hno. by apply list_elem_of_further.
  - unfold classes in *. cbn [omap list_omap]. rewrite Hx. cbn.
    apply IH. intros y Hy. apply Hno. by apply list_elem_of_further.
Qed.

Lemma dispatch_none σ request l :
  (∀ x, x ∈ l → handler_matches σ x request = false) →
  dispatch (classes σ l) request = unhandled.
Proof.
  intros Hno. rewrite <- (app_nil_r l). by rewrite dispatch_skip.
Qed.

(** The result is empty exactly when no class of the list matches. *)
Lemma dispatch_unhandled cs request :
  dispatch cs request = unhandled ↔ Forall (λ c, matches c request = false) cs.
Proof.
  induction cs as [|c cs IH]; cbn [dispatch]; [by split|].
  destruct (matches c request) eqn:Hc.
  - split.
    + intros He. by apply description_nonempty in He.
    + intros Hall. apply Forall_cons in Hall as [? _]. congruence.
  - rewrite IH. split; [by constructor|]. by intros [_ ?]%Forall_cons.
Qed.

(** ** [SetNext] and [make_shared] *)

Lemma SetNext_run s this handler o :
  heap s !! this = Some o →
  SetNext this handler s =
    Done handler
      (State (<[this := Object (dyn_type o) handler]> (heap s)) (cout s)).
Proof.
  intros Hthis. unfold SetNext, bind, store_next, ret. by rewrite Hthis.
Qed.

Lemma SetNext_unallocated s this handler :
  heap s !! this = None → SetNext this handler s = Fault.
Proof.
  intros Hthis. unfold SetNext, bind, store_next. by rewrite Hthis.
Qed.

Lemma successor_insert σ this o :
  successor (<[this := o]> σ) this = Some (next_handler_ o).
Proof. unfold successor. by rewrite lookup_insert_eq. Qed.

Lemma successor_insert_ne σ this p o :
  this ≠ p → successor (<[this := o]> σ) p = successor σ p.
Proof. intros Hne. unfold successor. by rewrite lookup_insert_ne. Qed.

Lemma make_shared_fresh s : heap s !! fresh (dom (heap s)) = None.
Proof. apply not_elem_of_dom, is_fresh. Qed.

(** A handler without successor decides alone. *)
Lemma Handle_last s this o request fuel :
  heap s !! this = Some o → next_handler_ o = None →
  Handle (S fuel) this request s = Done (alone (dyn_type o) request) s.
Proof.
  intros Hthis Hnext. rewrite (Handle_unfold _ _ _ _ _ Hthis), Hnext.
  unfold alone. by destruct (matches _ _).
Qed.

Lemma alone_literal c request :
  (literal c = Some request → alone c request = description c request) ∧
  (literal c ≠ Some request → alone c request = unhandled).
Proof.
  unfold alone. destruct (matches c request) eqn:Hm.
  - apply matches_literal in Hm. by split.
  - split; [|done]. intros Hl%matches_literal. congruence.
Qed.

(** A chain of [n] handlers has [n - 1] installed successor links. *)
Lemma chain_links σ p l : chain σ p l → S (links σ l) = length l.
Proof.
  unfold links.
  induction 1 as [p o Hp Hn | p o q l Hp Hn Hl IH]; cbn [List.filter];
    unfold has_successor at 1; rewrite Hp, Hn; cbn [length]; [done|].
  by rewrite IH.
Qed.

(** ** The claims *)

(** C1.  [Handle] on a handler follows the algorithm of the pipeline: when
    the local predicate of the handler matches the request, the handler
    returns its own description, and one call is enough, so nothing is
    forwarded; when it does not match and a successor is installed, the
    result is that of [Handle] on the successor with the same request; when
    there is no successor the result is the empty string.  On a chain the
    handlers are therefore asked one at a time in link order, and the first
    match decides. *)
Theorem Handle_algorithm s this o request fuel :
  heap s !! this = Some o →
  (matches (dyn_type o) request = true →
     Handle 1 this request s = Done (description (dyn_type o) request) s ∧
     Handle (S fuel) this request s =
       Done (description (dyn_type o) request) s) ∧
  (matches (dyn_type o) request = false →
     ∀ next, next_handler_ o = Some next →
       Handle (S fuel) this request s = Handle fuel next request s) ∧
  (matches (dyn_type o) request = false → next_handler_ o = None →
     Handle (S fuel) this request s = Done unhandled s) ∧
  (∀ l, chain (heap s) this l →
     Handle (length l) this request s =
       Done (dispatch (classes (heap s) l) request) s).
Proof.
  intros Hthis. split; [|split; [|split]].
  - intros Hyes. by rewrite !(Handle_unfold _ _ _ _ _ Hthis), Hyes.
  - intros Hno next Hnext.
    by rewrite (Handle_unfold _ _ _ _ _ Hthis), Hno, Hnext.
  - intros Hno Hnext.
    by rewrite (Handle_unfold _ _ _ _ _ Hthis), Hno, Hnext.
  - intros l Hl. by apply Handle_chain_returns.
Qed.

Lemma Handle_algorithm_witness :
  heap (State zoo "") !! 1%positive
    = Some (Object MonkeyHandler (Some 2%positive)) ∧
  Handle 3 1%positive "Nut" (State zoo "")
    = Handle 2 2%positive "Nut" (State zoo "").
Proof.
  split; [reflexivity|].
  refine (proj1 (proj2 (Handle_algorithm (State zoo "") 1%positive
            (Object MonkeyHandler (Some 2%positive)) "Nut" 2 _)) _ _ _);
    reflexivity.
Defined.

(** C2.  Let the request be matched by exactly one handler [H] of an acyclic
    chain.  Entered at [H] or at any handler before it, [Handle] returns the
    description of [H]; entered at a handler after [H], it returns the empty
    string.  The two groups of entry points are disjoint, since a chain
    visits no handler twice. *)
Theorem Handle_unique_match s p before H after oH request fuel :
  chain (heap s) p (before ++ H :: after) →
  heap s !! H = Some oH →
  matches (dyn_type oH) request = true →
  (∀ x, x ∈ before ++ after → handler_matches (heap s) x request = false) →
  length (before ++ H :: after) ≤ fuel →
  (∀ e, e ∈ before ++ [H] →
     Handle fuel e request s = Done (description (dyn_type oH) request) s) ∧
  (∀ e, e ∈ after → Handle fuel e request s = Done unhandled s) ∧
  (∀ e, e ∈ before ++ [H] → e ∉ after).
Proof.
  intros Hchain HH Hyes Hno Hfuel.
  assert (Hfrom : ∀ i e, (before ++ H :: after) !! i = Some e →
    Handle fuel e request s =
      Done (dispatch (classes (heap s) (drop i (before ++ H :: after))) request) s).
  { intros i e Hi. apply Handle_chain_returns.
    - by eapply chain_drop.
    - rewrite length_drop. lia. }
  split; [|split].
  - intros e He. apply list_elem_of_lookup in He as [i Hi].
    pose proof (lookup_lt_Some _ _ _ Hi) as Hlt.
    rewrite length_app in Hlt. cbn in Hlt.
    rewrite (Hfrom i e).
    + rewrite drop_app_le by lia.
      rewrite dispatch_skip.
      * rewrite (classes_cons _ _ _ _ HH). cbn [dispatch]. by rewrite Hyes.
      * intros x Hx. apply Hno. apply elem_of_app. left.
        by eapply elem_of_drop.
    + rewrite <- Hi. change (H :: after) with ([H] ++ after).
      rewrite app_assoc. apply lookup_app_l.
      rewrite length_app. cbn. lia.
  - intros e He. apply list_elem_of_lookup in He as [i Hi].
    rewrite (Hfrom (length before + S i) e).
    + rewrite drop_app_ge by lia.
      replace (length before + S i - length before) with (S i) by lia.
      cbn [drop]. rewrite dispatch_none; [done|].
      intros x Hx. apply Hno. apply elem_of_app. right.
      by eapply elem_of_drop.
    + rewrite lookup_app_r by lia.
      replace (length before + S i - length before) with (S i) by lia.
      done.
  - intros e He Hafter.
    pose proof (chain_NoDup _ _ _ Hchain) as Hnd.
    change (H :: after) with ([H] ++ after) in Hnd.
    rewrite app_assoc in Hnd.
    apply NoDup_app in Hnd as (_ & Hdisj & _). by apply (Hdisj e).
Qed.

Lemma Handle_unique_match_witness :
  chain zoo 1%positive ([1%positive] ++ 2%positive :: [3%positive]) ∧
  zoo !! 2%positive = Some (Object SquirrelHandler (Some 3%positive)) ∧
  (∀ x, x ∈ [1%positive] ++ [3%positive] →
     handler_matches zoo x "Nut" = false) ∧
  Handle 3 1%positive "Nut" (State zoo "")
    = Done (description SquirrelHandler "Nut") (State zoo "") ∧
  Handle 3 3%positive "Nut" (State zoo "") = Done unhandled (State zoo "").
Proof.
  assert (Hchain : chain zoo 1%positive ([1%positive] ++ 2%positive :: [3%positive])).
  { apply (walk_chain 3). reflexivity. }
  assert (Hno : ∀ x, x ∈ [1%positive] ++ [3%positive] →
                handler_matches zoo x "Nut" = false).
  { intros x Hx. apply elem_of_cons in Hx as [-> | Hx]; [reflexivity|].
    apply list_elem_of_singleton in Hx as ->. reflexivity. }
  destruct (Handle_unique_match (State zoo "") 1%positive [1%positive]
              2%positive [3%positive]
              (Object SquirrelHandler (Some 3%positive)) "Nut" 3
              Hchain eq_refl eq_refl Hno (le_n 3)) as (Hbefore & Hafter & _).
  split; [exact Hchain|]. split; [reflexivity|]. split; [exact Hno|]. split.
  - apply Hbefore. apply list_elem_of_here.
  - apply Hafter. apply list_elem_of_here.
Defined.

(** C3.  [SetNext] installs its argument as the successor of the receiver
    and returns that argument, not the receiver.  For a receiver [a] and an
    argument [b] that are two objects (linking a handler to itself is a
    cycle, which the pipeline leaves to the caller to avoid),
    [a->SetNext(b)->SetNext(c)] therefore leaves [b] as the successor of [a]
    and makes [c] the successor of [b]: [c] is not attached to [a].  Every
    other handler keeps its link. *)
Theorem fluent_SetNext_links s a b c oa ob :
  heap s !! a = Some oa →
  heap s !! b = Some ob →
  a ≠ b →
  (∀ handler, ∃ s1,
     SetNext a handler s = Done handler s1 ∧
     successor (heap s1) a = Some handler) ∧
  ∃ s',
    fluent_SetNext a b c s = Done (Some c) s' ∧
    successor (heap s') a = Some (Some b) ∧
    successor (heap s') b = Some (Some c) ∧
    (∀ p, p ≠ a → p ≠ b → successor (heap s') p = successor (heap s) p).
Proof.
  intros Ha Hb Hab. split.
  - intros handler. eexists. split; [by apply SetNext_run|].
    cbn [heap]. by rewrite successor_insert.
  - unfold fluent_SetNext, bind. rewrite (SetNext_run _ _ _ _ Ha). cbn [arrow].
    erewrite SetNext_run by (cbn [heap]; by rewrite lookup_insert_ne).
    eexists. split; [done|]. cbn [heap]. split; [|split].
    + by rewrite successor_insert_ne, successor_insert by done.
    + by rewrite successor_insert.
    + intros p Hpa Hpb. by rewrite !successor_insert_ne by done.
Qed.

Lemma fluent_SetNext_links_witness :
  1%positive ≠ 2%positive ∧
  ∃ s',
    fluent_SetNext 1%positive 2%positive 3%positive (State unlinked "")
      = Done (Some 3%positive) s' ∧
    successor (heap s') 1%positive = Some (Some 2%positive) ∧
    successor (heap s') 2%positive = Some (Some 3%positive).
Proof.
  assert (Hne : 1%positive ≠ 2%positive) by discriminate.
  split; [exact Hne|].
  destruct (fluent_SetNext_links (State unlinked "") 1%positive 2%positive
              3%positive (Object MonkeyHandler None)
              (Object SquirrelHandler None) eq_refl eq_refl Hne)
    as (_ & s' & Hrun & Ha & Hb & _).
  exists s'. split; [exact Hrun|]. split; [exact Ha | exact Hb].
Defined.

(** Where the hypothesis [a ≠ b] of the previous theorem is used: in
    [a->SetNext(a)->SetNext(c)] the argument is the receiver, the second call
    goes to [a] again and overwrites the link that the first call has just
    set, so the successor of [a] ends up being [c]. *)
Remark fluent_SetNext_same_receiver :
  ∃ s',
    fluent_SetNext 1%positive 1%positive 3%positive (State unlinked "")
      = Done (Some 3%positive) s' ∧
    successor (heap s') 1%positive = Some (Some 3%positive) ∧
    successor (heap s') 1%positive ≠ Some (Some 1%positive).
Proof.
  eexists. split; [vm_compute; reflexivity|]. split; [reflexivity|].
  vm_compute. discriminate.
Qed.

(** C4.  On every chain and for every request that no handler of the chain
    matches, [Handle] returns the empty string: the call returns, and it does
    not fault.  More generally the result of [Handle] on a chain is empty if
    and only if no handler reachable from the entry point matches the
    request, and no budget makes the call fault. *)
Theorem Handle_unmatched s p l request :
  chain (heap s) p l →
  ∃ result,
    (∀ fuel, length l ≤ fuel → Handle fuel p request s = Done result s) ∧
    (∀ fuel, Handle fuel p request s ≠ Fault) ∧
    ((∀ h, h ∈ l → handler_matches (heap s) h request = false) →
       result = unhandled) ∧
    (result = unhandled →
       ∀ h, h ∈ l → handler_matches (heap s) h request = false).
Proof.
  intros Hl. exists (dispatch (classes (heap s) l) request).
  split; [|split; [|split]].
  - intros fuel Hfuel. by apply Handle_chain_returns.
  - intros fuel. rewrite (Handle_chain _ _ _ _ Hl). by case_decide.
  - apply dispatch_none.
  - intros Hempty h Hh. apply dispatch_unhandled in Hempty.
    destruct (chain_allocated _ _ _ Hl h Hh) as [o Ho].
    rewrite (handler_matches_lookup _ _ _ _ Ho).
    rewrite Forall_forall in Hempty. apply Hempty.
    unfold classes. apply list_elem_of_omap. exists h. by rewrite Ho.
Qed.

Lemma Handle_unmatched_witness :
  chain zoo 1%positive [1%positive; 2%positive; 3%positive] ∧
  Handle 3 1%positive "Cup of coffee" (State zoo "")
    = Done unhandled (State zoo "").
Proof.
  assert (Hchain : chain zoo 1%positive [1%positive; 2%positive; 3%positive]).
  { apply (walk_chain 3). reflexivity. }
  split; [exact Hchain|].
  destruct (Handle_unmatched (State zoo "") 1%positive
              [1%positive; 2%positive; 3%positive] "Cup of coffee" Hchain)
    as (result & Hrun & _ & Hnone & _).
  rewrite (Hrun 3 (le_n 3)). f_equal. apply Hnone.
  intros h Hh. repeat (apply elem_of_cons in Hh as [-> | Hh]; [reflexivity|]).
  by apply elem_of_nil in Hh.
Defined.

(** C5.  The scenario of [main]: Monkey, Squirrel and Dog, which compare the
    request with "Banana", "Nut" and "MeatBall", linked
    Monkey → Squirrel → Dog.  Entered at Monkey, "Nut" is answered by
    Squirrel, "Banana" by Monkey and "Cup of coffee" by nobody; entered at
    Squirrel, "Nut" is answered by Squirrel and "Banana" by nobody. *)
Theorem main_scenario :
  ∃ monkey squirrel dog s,
    main_chain initial = Done (monkey, squirrel, dog) s ∧
    chain (heap s) monkey [monkey; squirrel; dog] ∧
    classes (heap s) [monkey; squirrel; dog]
      = [MonkeyHandler; SquirrelHandler; DogHandler] ∧
    literal MonkeyHandler = Some "Banana" ∧
    literal SquirrelHandler = Some "Nut" ∧
    literal DogHandler = Some "MeatBall" ∧
    ∀ fuel,
      Handle (3 + fuel) monkey "Nut" s
        = Done ("Squirrel: I'll eat the Nut." +:+ LF) s ∧
      Handle (3 + fuel) monkey "Banana" s
        = Done ("Monkey: I'll eat the Banana." +:+ LF) s ∧
      Handle (3 + fuel) monkey "Cup of coffee" s = Done "" s ∧
      Handle (2 + fuel) squirrel "Nut" s
        = Done ("Squirrel: I'll eat the Nut." +:+ LF) s ∧
      Handle (2 + fuel) squirrel "Banana" s = Done "" s.
Proof.
  exists 1%positive, 2%positive, 3%positive, (State zoo "").
  split; [vm_compute; reflexivity|].
  split; [apply (walk_chain 3); reflexivity|].
  split; [reflexivity|]. do 3 (split; [reflexivity|]).
  intros fuel.
  repeat split;
    first [ apply (Handle_fuel_mono 3); [lia | vm_compute; reflexivity]
          | apply (Handle_fuel_mono 2); [lia | vm_compute; reflexivity] ].
Qed.

(** What [main] prints, and that it returns 0. *)
Lemma main_output :
  ∃ s, main 3 initial = Done 0%Z s ∧ heap s = zoo ∧
    cout s =
      "Chain: Monkey > Squirrel > Dog" +:+ LF +:+ LF +:+
      "Client: Who wants a Nut?" +:+ LF +:+
      "  Squirrel: I'll eat the Nut." +:+ LF +:+
      "Client: Who wants a Banana?" +:+ LF +:+
      "  Monkey: I'll eat the Banana." +:+ LF +:+
      "Client: Who wants a Cup of coffee?" +:+ LF +:+
      "  Cup of coffee was left untouched." +:+ LF +:+
      LF +:+
      "Subchain: Squirrel > Dog" +:+ LF +:+ LF +:+
      "Client: Who wants a Nut?" +:+ LF +:+
      "  Squirrel: I'll eat the Nut." +:+ LF +:+
      "Client: Who wants a Banana?" +:+ LF +:+
      "  Banana was left untouched." +:+ LF +:+
      "Client: Who wants a Cup of coffee?" +:+ LF +:+
      "  Cup of coffee was left untouched." +:+ LF.
Proof.
  eexists. split; [vm_compute; reflexivity|]. split; reflexivity.
Qed.

(** The state matters to [Handle] through the heap only. *)
Lemma Handle_heap_only fuel : ∀ this request s s' result,
  heap s' = heap s →
  Handle fuel this request s = Done result s →
  Handle fuel this request s' = Done result s'.
Proof.
  induction fuel as [|fuel IH]; intros this request s s' result Hheap Hrun;
    [done|].
  destruct (heap s !! this) as [o|] eqn:Hthis.
  - rewrite (Handle_unfold _ _ _ _ _ Hthis) in Hrun.
    rewrite <- Hheap in Hthis. rewrite (Handle_unfold _ _ _ _ _ Hthis).
    destruct (matches _ _); [congruence|].
    destruct (next_handler_ o); [eauto | congruence].
  - by rewrite Handle_unallocated in Hrun.
Qed.

(** Two calls that return agree, whatever their budgets. *)
Lemma Handle_agree this request s fuel1 fuel2 r1 r2 s1 s2 :
  Handle fuel1 this request s = Done r1 s1 →
  Handle fuel2 this request s = Done r2 s2 →
  r1 = r2.
Proof.
  intros H1 H2.
  apply (Handle_fuel_mono _ (fuel1 `max` fuel2)) in H1; [|lia].
  apply (Handle_fuel_mono _ (fuel1 `max` fuel2)) in H2; [|lia].
  congruence.
Qed.

(** C6.  A call of [Handle] that returns leaves the state as it was, so that
    the same call made again returns the same result, and any later call
    with the same request returns an equal result whatever its budget.  The
    text already printed plays no part.  On a chain the result is the first
    match among the classes met in link order, so two entry points, also in
    two different heaps, whose chains carry the same classes in the same
    order give equal results for equal requests. *)
Theorem Handle_deterministic s this request fuel result s1 :
  Handle fuel this request s = Done result s1 →
  s1 = s ∧
  Handle fuel this request s1 = Done result s1 ∧
  (∀ fuel' result' s2,
     Handle fuel' this request s1 = Done result' s2 → result' = result) ∧
  (∀ out,
     Handle fuel this request (State (heap s) out)
       = Done result (State (heap s) out)) ∧
  (∀ l, chain (heap s) this l →
     result = dispatch (classes (heap s) l) request ∧
     ∀ s' this' l' fuel' result' s2',
       chain (heap s') this' l' →
       classes (heap s') l' = classes (heap s) l →
       Handle fuel' this' request s' = Done result' s2' →
       result' = result).
Proof.
  intros Hrun. pose proof (Handle_reads _ _ _ _ _ _ Hrun) as ->.
  split; [done|]. split; [done|]. split; [|split].
  - intros fuel' result' s2 Hagain. by eapply Handle_agree.
  - intros out. by apply (Handle_heap_only _ _ _ s).
  - intros l Hl.
    assert (Hres : result = dispatch (classes (heap s) l) request).
    { pose proof (Handle_chain_returns _ _ _ request _ Hl (le_n _)) as Hfull.
      by eapply Handle_agree. }
    split; [done|].
    intros s' this' l' fuel' result' s2' Hl' Hsame Hrun'.
    pose proof (Handle_chain_returns _ _ _ request _ Hl' (le_n _)) as Hfull.
    rewrite Hsame, <- Hres in Hfull. by eapply Handle_agree.
Qed.

Lemma Handle_deterministic_witness :
  Handle 3 1%positive "Nut" (State zoo "")
    = Done (description SquirrelHandler "Nut") (State zoo "") ∧
  Handle 3 1%positive "Nut" (State zoo "printed")
    = Done (description SquirrelHandler "Nut") (State zoo "printed").
Proof.
  assert (Hrun : Handle 3 1%positive "Nut" (State zoo "")
            = Done (description SquirrelHandler "Nut") (State zoo ""))
    by reflexivity.
  split; [exact Hrun|].
  exact (proj1 (proj2 (proj2 (proj2
    (Handle_deterministic _ _ _ _ _ _ Hrun)))) "printed").
Defined.

(** The decision of [Handle] on a chain: how many handlers are asked, and
    what the last of them does. *)
Lemma Handle_decision s p l request :
  chain (heap s) p l →
  ∃ k result,
    1 ≤ k ∧ k ≤ length l ∧
    (∀ fuel, k ≤ fuel → Handle fuel p request s = Done result s) ∧
    (∀ fuel, fuel < k → Handle fuel p request s = OutOfFuel) ∧
    ∃ h o,
      l !! (k - 1) = Some h ∧ heap s !! h = Some o ∧
      (∀ x, x ∈ take (k - 1) l → handler_matches (heap s) x request = false) ∧
      ((matches (dyn_type o) request = true ∧
        result = description (dyn_type o) request) ∨
       (matches (dyn_type o) request = false ∧
        next_handler_ o = None ∧ k = length l ∧ result = unhandled)).
Proof.
  induction 1 as [p o Hp Hn | p o q l Hp Hn Hl IH].
  - exists 1, (alone (dyn_type o) request).
    split; [lia|]. split; [cbn; lia|]. split; [|split].
    + intros [|fuel] Hfuel; [lia|]. by apply Handle_last.
    + intros fuel Hfuel. by replace fuel with 0 by lia.
    + exists p, o. split; [done|]. split; [done|]. split.
      * intros x Hx. by apply elem_of_nil in Hx.
      * unfold alone. destruct (matches _ _); [by left | by right].
  - destruct (matches (dyn_type o) request) eqn:Hm.
    + exists 1, (description (dyn_type o) request).
      split; [lia|]. split; [cbn; lia|]. split; [|split].
      * intros [|fuel] Hfuel; [lia|].
        by rewrite (Handle_unfold _ _ _ _ _ Hp), Hm.
      * intros fuel Hfuel. by replace fuel with 0 by lia.
      * exists p, o. split; [done|]. split; [done|]. split.
        -- intros x Hx. by apply elem_of_nil in Hx.
        -- by left.
    + destruct IH as (k & result & Hk1 & Hk2 & Henough & Hneeded &
                      h & oh & Hh & Hoh & Hskipped & Hdecision).
      exists (S k), result.
      split; [lia|]. split; [cbn; lia|]. split; [|split].
      * intros [|fuel] Hfuel; [lia|].
        rewrite (Handle_unfold _ _ _ _ _ Hp), Hm, Hn. apply Henough. lia.
      * intros [|fuel] Hfuel; [done|].
        rewrite (Handle_unfold _ _ _ _ _ Hp), Hm, Hn. apply Hneeded. lia.
      * exists h, oh. replace (S k - 1) with (S (k - 1)) by lia.
        split; [done|]. split; [done|]. split.
        -- cbn [take]. intros x [-> | Hx]%elem_of_cons.
           ++ by rewrite (handler_matches_lookup _ _ _ _ Hp).
           ++ by apply Hskipped.
        -- destruct Hdecision as [?|(? & ? & -> & ?)]; [by left|].
           right. by repeat split.
Qed.

(** C7.  On an acyclic chain [Handle] terminates.  There is a number [k] of
    handlers, at least one and at most the number of handlers of the chain,
    such that [k] nested calls are necessary and sufficient for the call to
    return; the request is passed on [k - 1] times, which is at most the
    number of successor links installed in the chain.  The handlers asked
    are the first [k] of the chain; the first [k - 1] do not match, and at
    the last of them the decision is final: either it matches, and the result
    is its description, or it is the end of the chain (no successor), and the
    result is the empty string. *)
Theorem Handle_terminates s p l request :
  chain (heap s) p l →
  ∃ k result,
    1 ≤ k ∧ k ≤ length l ∧ k - 1 ≤ links (heap s) l ∧
    (∀ fuel, k ≤ fuel → Handle fuel p request s = Done result s) ∧
    (∀ fuel, fuel < k → Handle fuel p request s = OutOfFuel) ∧
    ∃ h o,
      l !! (k - 1) = Some h ∧ heap s !! h = Some o ∧
      (∀ x, x ∈ take (k - 1) l → handler_matches (heap s) x request = false) ∧
      ((matches (dyn_type o) request = true ∧
        result = description (dyn_type o) request) ∨
       (matches (dyn_type o) request = false ∧
        next_handler_ o = None ∧ k = length l ∧ result = unhandled)).
Proof.
  intros Hchain. pose proof (chain_links _ _ _ Hchain) as Hlinks.
  destruct (Handle_decision _ _ _ request Hchain)
    as (k & result & Hk1 & Hk2 & Hrest).
  exists k, result. split; [done|]. split; [done|]. split; [lia | done].
Qed.

Lemma Handle_terminates_witness :
  chain zoo 1%positive [1%positive; 2%positive; 3%positive] ∧
  ∃ k result,
    k ≤ 3 ∧
    Handle k 1%positive "Nut" (State zoo "") = Done result (State zoo "").
Proof.
  assert (Hchain : chain zoo 1%positive [1%positive; 2%positive; 3%positive]).
  { apply (walk_chain 3). reflexivity. }
  split; [exact Hchain|].
  destruct (Handle_terminates (State zoo "") 1%positive
              [1%positive; 2%positive; 3%positive] "Nut" Hchain)
    as (k & result & _ & Hk & _ & Henough & _).
  exists k, result. split; [exact Hk|]. apply Henough. apply le_n.
Defined.

(** ** What changes the heap *)

Lemma keeps_heap_ret {A} (a : A) : keeps_heap (ret a).
Proof. intros s a' s' Hrun. unfold ret in Hrun. by simplify_eq. Qed.

Lemma keeps_heap_bind {A B} (m : M A) (f : A → M B) :
  keeps_heap m → (∀ a, keeps_heap (f a)) → keeps_heap (bind m f).
Proof.
  intros Hm Hf s b s' Hrun. unfold bind in Hrun.
  destruct (m s) as [a s1| |] eqn:Hms; [|done..].
  rewrite (Hf _ _ _ _ Hrun). by eapply Hm.
Qed.

Lemma keeps_heap_print text : keeps_heap (print text).
Proof. intros s a s' Hrun. unfold print in Hrun. by simplify_eq. Qed.

Lemma keeps_heap_Handle fuel this request :
  keeps_heap (Handle fuel this request).
Proof. intros s a s' Hrun. by rewrite (Handle_reads _ _ _ _ _ _ Hrun). Qed.

Lemma keeps_heap_for_each {A} (v : list A) (body : A → M unit) :
  (∀ x, keeps_heap (body x)) → keeps_heap (for_each v body).
Proof.
  intros Hbody. induction v as [|x v IH]; cbn [for_each].
  - apply keeps_heap_ret.
  - apply keeps_heap_bind; [apply Hbody | by intros _].
Qed.

Lemma keeps_heap_ClientCode fuel handler : keeps_heap (ClientCode fuel handler).
Proof.
  unfold ClientCode. apply keeps_heap_for_each. intros f.
  repeat (apply keeps_heap_bind; [apply keeps_heap_print | intros _]).
  apply keeps_heap_bind.
  - destruct handler as [h|]; cbn [arrow]; [apply keeps_heap_Handle | done].
  - intros result. destruct (negb _);
      repeat (apply keeps_heap_bind; [apply keeps_heap_print | intros _]);
      apply keeps_heap_print.
Qed.

(** C8.  [Handle] changes no pipeline state: after a call that returns, the
    state is the state before the call, so every handler has the successor it
    had.  The client loop and printing keep the heap too, and building a new
    handler leaves the handlers that exist untouched.  [SetNext] returns
    after one assignment: the receiver has the new successor and keeps its
    class, and every other handler is as it was. *)
Theorem Handle_frame s :
  (∀ fuel this request result s',
     Handle fuel this request s = Done result s' →
     s' = s ∧ ∀ p, successor (heap s') p = successor (heap s) p) ∧
  (∀ this handler o,
     heap s !! this = Some o →
     ∃ s',
       SetNext this handler s = Done handler s' ∧
       heap s' = <[this := Object (dyn_type o) handler]> (heap s) ∧
       successor (heap s') this = Some handler ∧
       (∀ p, p ≠ this → heap s' !! p = heap s !! p) ∧
       cout s' = cout s) ∧
  (∀ c p s',
     make_shared c s = Done p s' →
     ∀ q, is_Some (heap s !! q) → heap s' !! q = heap s !! q) ∧
  (∀ fuel handler s',
     ClientCode fuel handler s = Done tt s' → heap s' = heap s).
Proof.
  split; [|split; [|split]].
  - intros fuel this request result s' Hrun.
    by rewrite (Handle_reads _ _ _ _ _ _ Hrun).
  - intros this handler o Hthis. eexists.
    split; [by apply SetNext_run|]. cbn [heap cout].
    split; [done|]. split; [by rewrite successor_insert|]. split; [|done].
    intros p Hp. by rewrite lookup_insert_ne.
  - intros c p s' Hrun q [o Hq]. unfold make_shared in Hrun.
    simplify_eq. cbn [heap]. apply lookup_insert_ne.
    intros <-. by rewrite make_shared_fresh in Hq.
  - intros fuel handler s' Hrun. by eapply keeps_heap_ClientCode.
Qed.

Lemma Handle_frame_witness :
  Handle 3 1%positive "Nut" (State zoo "")
    = Done (description SquirrelHandler "Nut") (State zoo "") ∧
  ∀ p, successor (heap (State zoo "")) p = successor zoo p.
Proof.
  assert (Hrun : Handle 3 1%positive "Nut" (State zoo "")
            = Done (description SquirrelHandler "Nut") (State zoo ""))
    by reflexivity.
  split; [exact Hrun|].
  exact (proj2 (proj1 (Handle_frame (State zoo "")) _ _ _ _ _ Hrun)).
Defined.

(** C9.  A handler that has just been built has no successor, in every
    state and so also for the first handler of a program, and it answers
    alone.  [SetNext] accepts [nullptr].  A handler without successor never
    delegates: one call is enough, and it returns the description of the
    handler when the request is its literal and the empty string otherwise.
    So after [h->SetNext(nullptr)] the chain from [h] is [h] alone, whatever
    was linked behind it before. *)
Theorem Handle_without_successor s c request fuel :
  (∃ p s0,
     make_shared c s = Done p s0 ∧
     heap s !! p = None ∧
     heap s0 !! p = Some (Object c None) ∧
     successor (heap s0) p = Some None ∧
     chain (heap s0) p [p] ∧
     Handle (S fuel) p request s0 = Done (alone c request) s0) ∧
  (∀ h o,
     heap s !! h = Some o →
     (∃ s',
        SetNext h None s = Done None s' ∧
        successor (heap s') h = Some None ∧
        chain (heap s') h [h] ∧
        Handle (S fuel) h request s' = Done (alone (dyn_type o) request) s') ∧
     (next_handler_ o = None →
        Handle (S fuel) h request s = Done (alone (dyn_type o) request) s)) ∧
  (∀ c', (literal c' = Some request →
            alone c' request = description c' request) ∧
         (literal c' ≠ Some request → alone c' request = unhandled)).
Proof.
  split; [|split].
  - eexists _, _. split; [reflexivity|]. cbn [heap].
    split; [apply make_shared_fresh|].
    split; [apply lookup_insert_eq|].
    split; [by rewrite successor_insert|].
    split; [eapply chain_end; [apply lookup_insert_eq | done]|].
    apply (Handle_last _ _ (Object c None)); [apply lookup_insert_eq | done].
  - intros h o Hh. split.
    + eexists. split; [by apply SetNext_run|]. cbn [heap].
      split; [by rewrite successor_insert|].
      split; [eapply chain_end; [apply lookup_insert_eq | done]|].
      apply (Handle_last _ _ (Object (dyn_type o) None));
        [apply lookup_insert_eq | done].
    + intros Hnext. by apply Handle_last.
  - intros c'. apply alone_literal.
Qed.

Lemma Handle_without_successor_witness :
  (∃ p s0,
     make_shared MonkeyHandler initial = Done p s0 ∧
     heap s0 !! p = Some (Object MonkeyHandler None) ∧
     Handle 1 p "Nut" s0 = Done (alone MonkeyHandler "Nut") s0) ∧
  zoo !! 1%positive = Some (Object MonkeyHandler (Some 2%positive)) ∧
  ∃ s',
    SetNext 1%positive None (State zoo "") = Done None s' ∧
    chain (heap s') 1%positive [1%positive] ∧
    Handle 1 1%positive "Nut" s' = Done (alone MonkeyHandler "Nut") s'.
Proof.
  split; [|split; [reflexivity|]].
  - destruct (proj1 (Handle_without_successor initial MonkeyHandler "Nut" 0))
      as (p & s0 & Hnew & _ & Hobj & _ & _ & Hrun).
    exists p, s0. split; [exact Hnew|]. split; [exact Hobj | exact Hrun].
  - destruct (proj1 (proj1 (proj2
                (Handle_without_successor (State zoo "") DogHandler "Nut" 0))
                1%positive (Object MonkeyHandler (Some 2%positive)) eq_refl))
      as (s' & Hset & _ & Hchain & Hrun).
    exists s'. split; [exact Hset|]. split; [exact Hchain | exact Hrun].
Defined.

(** The class met at each position of a chain. *)
Lemma classes_lookup σ p l :
  chain σ p l →
  ∀ i h o, l !! i = Some h → σ !! h = Some o →
    classes σ l !! i = Some (dyn_type o).
Proof.
  induction 1 as [p o Hp Hn | p o q l Hp Hn Hl IH]; intros i h oh Hi Hh;
    rewrite (classes_cons _ _ _ _ Hp).
  - destruct i as [|i]; simplify_eq/=. done.
  - destruct i as [|i]; simplify_eq/=; [done | by eapply IH].
Qed.

(** No request is the literal of two classes. *)
Lemma matches_unique c1 c2 request :
  matches c1 request = true → matches c2 request = true → c1 = c2.
Proof.
  intros H1%matches_literal H2%matches_literal.
  destruct c1, c2; cbn in *; congruence.
Qed.

(** C10.  The predicate of each concrete handler is equality of the whole
    request with one literal: "Banana" for Monkey, "Nut" for Squirrel,
    "MeatBall" for Dog.  A handler returns its description exactly when the
    request is its literal; for every other request, however close, it hands
    over to its successor or returns the empty string.  The literals differ
    from one another, so no request is matched by two classes, and in a
    chain with at most one handler of each class at most one handler matches
    a request. *)
Theorem literal_predicates :
  literal MonkeyHandler = Some "Banana" ∧
  literal SquirrelHandler = Some "Nut" ∧
  literal DogHandler = Some "MeatBall" ∧
  (∀ s this o request fuel,
     heap s !! this = Some o →
     (literal (dyn_type o) = Some request →
        Handle (S fuel) this request s
          = Done (description (dyn_type o) request) s) ∧
     (literal (dyn_type o) ≠ Some request →
        Handle (S fuel) this request s =
          match next_handler_ o with
          | Some next => Handle fuel next request s
          | None => Done unhandled s
          end)) ∧
  (∀ c1 c2 request,
     matches c1 request = true → matches c2 request = true → c1 = c2) ∧
  (∀ s p l request i j hi hj,
     chain (heap s) p l →
     NoDup (classes (heap s) l) →
     l !! i = Some hi → l !! j = Some hj →
     handler_matches (heap s) hi request = true →
     handler_matches (heap s) hj request = true →
     i = j) ∧
  (∀ fuel,
     Handle (S fuel) 1%positive "banana" (State unlinked "")
       = Done unhandled (State unlinked "") ∧
     Handle (S fuel) 1%positive "Banana " (State unlinked "")
       = Done unhandled (State unlinked "") ∧
     Handle (3 + fuel) 1%positive "banana" (State zoo "")
       = Handle (2 + fuel) 2%positive "banana" (State zoo "") ∧
     Handle (3 + fuel) 1%positive "banana" (State zoo "")
       = Done unhandled (State zoo "")).
Proof.
  do 3 (split; [reflexivity|]). split; [|split; [|split]].
  - intros s this o request fuel Hthis.
    rewrite (Handle_unfold _ _ _ _ _ Hthis). split.
    + intros Hl%matches_literal. by rewrite Hl.
    + intros Hl. destruct (matches _ _) eqn:Hm; [|done].
      by apply matches_literal in Hm.
  - apply matches_unique.
  - intros s p l request i j hi hj Hl Hnd Hi Hj Hmi Hmj.
    destruct (chain_allocated _ _ _ Hl hi) as [oi Hoi];
      [by eapply list_elem_of_lookup_2|].
    destruct (chain_allocated _ _ _ Hl hj) as [oj Hoj];
      [by eapply list_elem_of_lookup_2|].
    rewrite (handler_matches_lookup _ _ _ _ Hoi) in Hmi.
    rewrite (handler_matches_lookup _ _ _ _ Hoj) in Hmj.
    pose proof (classes_lookup _ _ _ Hl _ _ _ Hi Hoi) as Hci.
    pose proof (classes_lookup _ _ _ Hl _ _ _ Hj Hoj) as Hcj.
    rewrite (matches_unique _ _ _ Hmi Hmj) in Hci.
    by eapply NoDup_lookup.
  - intros fuel. split; [|split; [|split]].
    + by apply (Handle_last _ _ (Object MonkeyHandler None)).
    + by apply (Handle_last _ _ (Object MonkeyHandler None)).
    + change (3 + fuel) with (S (2 + fuel)).
      by rewrite (Handle_unfold _ _ _ _ (Object MonkeyHandler (Some 2%positive))).
    + apply (Handle_fuel_mono 3); [lia | reflexivity].
Qed.

Lemma literal_predicates_witness :
  zoo !! 2%positive = Some (Object SquirrelHandler (Some 3%positive)) ∧
  Handle 1 2%positive "Nut" (State zoo "")
    = Done (description SquirrelHandler "Nut") (State zoo "").
Proof.
  split; [reflexivity|].
  refine (proj1 (proj1 (proj2 (proj2 (proj2 literal_predicates)))
            (State zoo "") 2%positive
            (Object SquirrelHandler (Some 3%positive)) "Nut" 0 _) _);
    reflexivity.
Defined.

(** Without acyclicity there is no such bound: on the self-linked Monkey a
    request for a nut is passed round for ever. *)
Example Handle_looped :
  ∀ fuel, Handle fuel 1%positive "Nut" (State looped "") = OutOfFuel.
Proof.
  apply (Handle_self_loop _ _ (Object MonkeyHandler (Some 1%positive)));
    reflexivity.
Qed.

(** * Further properties of the program *)

(** ** Paths: early answers and cycles *)

Lemma reaches_app σ p l1 q l2 r :
  reaches σ p l1 q → reaches σ q l2 r → reaches σ p (l1 ++ l2) r.
Proof.
  induction 1 as [p | p o p' l q Hp Hn Hl IH]; intros Hq; [done|].
  cbn [app]. eapply reaches_step; eauto.
Qed.

Lemma reaches_chain σ p l1 q l2 :
  reaches σ p l1 q → chain σ q l2 → chain σ p (l1 ++ l2).
Proof.
  induction 1 as [p | p o p' l q Hp Hn Hl IH]; intros Hq; [done|].
  cbn [app]. eapply chain_next; eauto.
Qed.

Lemma chain_reaches σ p l1 t l2 :
  chain σ p (l1 ++ t :: l2) → reaches σ p l1 t.
Proof.
  revert p. induction l1 as [|x l1 IH]; intros p Hc.
  - cbn in Hc. inversion Hc; subst; apply reaches_here.
  - cbn in Hc. inversion Hc as [? o Hp Hn Heq | ? o q l Hp Hn Hl]; subst.
    + by destruct l1.
    + eapply reaches_step; eauto.
Qed.

(** Every handler passed on a path has a successor, which is passed too or
    is the end of the path. *)
Lemma reaches_successor σ p l q :
  reaches σ p l q →
  ∀ x, x ∈ l →
    ∃ o y, σ !! x = Some o ∧ next_handler_ o = Some y ∧ (y ∈ l ∨ y = q).
Proof.
  induction 1 as [p | p o p' l q Hp Hn Hl IH]; intros x Hx.
  - by apply elem_of_nil in Hx.
  - apply elem_of_cons in Hx as [-> | Hx].
    + exists o, p'. split; [done|]. split; [done|].
      inversion Hl; subst; [by right | left].
      apply list_elem_of_further, list_elem_of_here.
    + destruct (IH x Hx) as (ox & y & Hox & Hy & Hin).
      exists ox, y. split; [done|]. split; [done|].
      destruct Hin as [Hin | ->]; [left | by right].
      by apply list_elem_of_further.
Qed.

Lemma reaches_start σ p x l q : reaches σ p (x :: l) q → x = p.
Proof. by inversion 1. Qed.

(** A set of handlers that do not match and that is closed under taking the
    successor is never left. *)
Lemma Handle_trapped s request (P : loc → Prop) :
  (∀ x, P x →
     ∃ o y, heap s !! x = Some o ∧ matches (dyn_type o) request = false ∧
            next_handler_ o = Some y ∧ P y) →
  ∀ fuel p, P p → Handle fuel p request s = OutOfFuel.
Proof.
  intros Hstep. induction fuel as [|fuel IH]; intros p Hp; [done|].
  destruct (Hstep p Hp) as (o & y & Ho & Hm & Hy & HPy).
  rewrite (Handle_unfold _ _ _ _ _ Ho), Hm, Hy. by apply IH.
Qed.

(** Handlers that do not match are passed, one call each. *)
Lemma Handle_pass s request p l q :
  reaches (heap s) p l q →
  (∀ x, x ∈ l → handler_matches (heap s) x request = false) →
  (∀ fuel, Handle (length l + fuel) p request s = Handle fuel q request s) ∧
  (∀ fuel, fuel ≤ length l → Handle fuel p request s = OutOfFuel).
Proof.
  induction 1 as [p | p o p' l q Hp Hn Hl IH]; intros Hno.
  - split; [done|]. intros fuel Hfuel. by replace fuel with 0 by (cbn in *; lia).
  - destruct IH as [IH1 IH2].
    { intros x Hx. apply Hno. by apply list_elem_of_further. }
    pose proof (Hno p (list_elem_of_here _ _)) as Hm.
    rewrite (handler_matches_lookup _ _ _ _ Hp) in Hm.
    split.
    + intros fuel. cbn [length Nat.add].
      by rewrite (Handle_unfold _ _ _ _ _ Hp), Hm, Hn.
    + intros [|fuel] Hfuel; [done|]. cbn [length] in *.
      rewrite (Handle_unfold _ _ _ _ _ Hp), Hm, Hn. apply IH2. lia.
Qed.

(** X1.  A handler that matches answers as soon as the request reaches it,
    whatever lies behind it: if the handlers passed on the way from the entry
    point to [q] do not match and [q] matches, [Handle] returns the
    description of [q] after exactly one call per handler passed and one for
    [q].  Nothing is asked of the heap behind [q], which may be cyclic. *)
Theorem Handle_first_match s request p l q oq :
  reaches (heap s) p l q →
  (∀ x, x ∈ l → handler_matches (heap s) x request = false) →
  heap s !! q = Some oq →
  matches (dyn_type oq) request = true →
  (∀ fuel, length l < fuel →
     Handle fuel p request s = Done (description (dyn_type oq) request) s) ∧
  (∀ fuel, fuel ≤ length l → Handle fuel p request s = OutOfFuel).
Proof.
  intros Hpath Hno Hq Hm.
  destruct (Handle_pass _ request _ _ _ Hpath Hno) as [Hpass Hshort].
  split; [|done]. intros fuel Hfuel.
  replace fuel with (length l + S (fuel - length l - 1)) by lia.
  by rewrite Hpass, (Handle_unfold _ _ _ _ _ Hq), Hm.
Qed.

Lemma Handle_first_match_witness :
  reaches looped 1%positive [] 1%positive ∧
  (∀ fuel, 0 < fuel →
     Handle fuel 1%positive "Banana" (State looped "")
       = Done (description MonkeyHandler "Banana") (State looped "")).
Proof.
  assert (Hpath : reaches looped 1%positive [] 1%positive)
    by apply reaches_here.
  split; [exact Hpath|].
  refine (proj1 (Handle_first_match (State looped "") "Banana" 1%positive []
            1%positive (Object MonkeyHandler (Some 1%positive))
            Hpath _ eq_refl eq_refl)).
  intros x Hx. by apply elem_of_nil in Hx.
Defined.

(** X2.  A cycle without a match is never left: if the entry point leads,
    past handlers that do not match, to a handler [q] from which the links
    lead back to [q], again past handlers that do not match, then [Handle]
    does not return, whatever the depth allowed. *)
Theorem Handle_cycle_diverges s request p l1 q l2 :
  reaches (heap s) p l1 q →
  reaches (heap s) q l2 q →
  l2 ≠ [] →
  (∀ x, x ∈ l1 ++ l2 → handler_matches (heap s) x request = false) →
  ∀ fuel, Handle fuel p request s = OutOfFuel.
Proof.
  intros Hto Hround Hne Hno fuel.
  assert (Hq : q ∈ l2).
  { destruct l2 as [|x l2]; [done|].
    rewrite (reaches_start _ _ _ _ _ Hround). apply list_elem_of_here. }
  assert (Hp : p ∈ l1 ++ l2).
  { destruct l1 as [|x l1].
    - inversion Hto; subst. done.
    - rewrite (reaches_start _ _ _ _ _ Hto). apply list_elem_of_here. }
  apply (Handle_trapped s request (λ x, x ∈ l1 ++ l2)); [|done].
  intros x Hx.
  destruct (reaches_successor _ _ _ _ (reaches_app _ _ _ _ _ _ Hto Hround) x Hx)
    as (o & y & Ho & Hy & Hin).
  exists o, y. split; [done|]. split.
  - rewrite <- (handler_matches_lookup _ _ _ _ Ho). by apply Hno.
  - split; [done|]. destruct Hin as [Hin | ->]; [done|].
    apply elem_of_app. by right.
Qed.

Lemma Handle_cycle_diverges_witness :
  reaches looped 1%positive [1%positive] 1%positive ∧
  ∀ fuel, Handle fuel 1%positive "Nut" (State looped "") = OutOfFuel.
Proof.
  assert (Hround : reaches looped 1%positive [1%positive] 1%positive).
  { eapply reaches_step; [reflexivity | reflexivity | apply reaches_here]. }
  split; [exact Hround|].
  refine (Handle_cycle_diverges (State looped "") "Nut" 1%positive []
            1%positive [1%positive] (reaches_here _ _) Hround _ _).
  - discriminate.
  - intros x Hx. apply list_elem_of_singleton in Hx as ->. reflexivity.
Defined.

(** ** The order of the handlers *)

(** The answer to a request is that of any class of the list that matches
    it. *)
Lemma dispatch_member cs c request :
  c ∈ cs → matches c request = true →
  dispatch cs request = description c request.
Proof.
  induction cs as [|c0 cs IH]; intros Hin Hm.
  - by apply elem_of_nil in Hin.
  - cbn [dispatch]. destruct (matches c0 request) eqn:Hm0.
    + by rewrite (matches_unique _ _ _ Hm0 Hm).
    + apply elem_of_cons in Hin as [-> | Hin]; [congruence | by apply IH].
Qed.

Lemma dispatch_cases cs request :
  (∃ c, c ∈ cs ∧ matches c request = true ∧
        dispatch cs request = description c request) ∨
  ((∀ c, c ∈ cs → matches c request = false) ∧
   dispatch cs request = unhandled).
Proof.
  induction cs as [|c0 cs IH]; cbn [dispatch].
  - right. split; [|done]. intros c Hc. by apply elem_of_nil in Hc.
  - destruct (matches c0 request) eqn:Hm0.
    + left. exists c0. split; [apply list_elem_of_here | done].
    + destruct IH as [(c & Hc & Hm & Hd) | [Hno Hd]].
      * left. exists c. split; [by apply list_elem_of_further | done].
      * right. split; [|done].
        intros c [-> | Hc]%elem_of_cons; [done | by apply Hno].
Qed.

Lemma dispatch_same_classes cs cs' request :
  (∀ c, c ∈ cs ↔ c ∈ cs') → dispatch cs request = dispatch cs' request.
Proof.
  intros Hsame.
  destruct (dispatch_cases cs request) as [(c & Hc & Hm & ->) | [Hno ->]].
  - symmetry. apply dispatch_member; [by apply Hsame | done].
  - destruct (dispatch_cases cs' request) as [(c & Hc & Hm & _) | [_ ->]];
      [|done].
    apply Hsame in Hc. rewrite (Hno c Hc) in Hm. done.
Qed.

(** X3.  In this program the order of the handlers in a chain cannot be
    observed through [Handle]: the literals of the classes differ and all
    handlers of a class give the same description, so the result for a
    request is the description of whichever class of the chain has the
    request as its literal, and the empty string when there is none.  Two
    chains that carry the same classes, in any order and any number of
    times, answer every request alike. *)
Theorem Handle_order_irrelevant s p l request :
  chain (heap s) p l →
  (∀ c, c ∈ classes (heap s) l → literal c = Some request →
     Handle (length l) p request s = Done (description c request) s) ∧
  ((∀ c, c ∈ classes (heap s) l → literal c ≠ Some request) →
     Handle (length l) p request s = Done unhandled s) ∧
  (∀ s' p' l',
     chain (heap s') p' l' →
     (∀ c, c ∈ classes (heap s) l ↔ c ∈ classes (heap s') l') →
     ∃ result,
       Handle (length l) p request s = Done result s ∧
       Handle (length l') p' request s' = Done result s').
Proof.
  intros Hl. rewrite (Handle_chain_returns _ _ _ request _ Hl (le_n _)).
  split; [|split].
  - intros c Hc Hlit. f_equal. apply dispatch_member; [done|].
    by apply matches_literal.
  - intros Hno. f_equal.
    destruct (dispatch_cases (classes (heap s) l) request)
      as [(c & Hc & Hm & _) | [_ Hd]]; [|done].
    apply matches_literal in Hm. by destruct (Hno c Hc).
  - intros s' p' l' Hl' Hsame.
    exists (dispatch (classes (heap s) l) request). split; [done|].
    rewrite (Handle_chain_returns _ _ _ request _ Hl' (le_n _)).
    f_equal. symmetry. by apply dispatch_same_classes.
Qed.

Lemma Handle_order_irrelevant_witness :
  chain zoo 1%positive [1%positive; 2%positive; 3%positive] ∧
  Handle 3 1%positive "MeatBall" (State zoo "")
    = Done (description DogHandler "MeatBall") (State zoo "").
Proof.
  assert (Hchain : chain zoo 1%positive [1%positive; 2%positive; 3%positive]).
  { apply (walk_chain 3). reflexivity. }
  split; [exact Hchain|].
  refine (proj1 (Handle_order_irrelevant (State zoo "") 1%positive
            [1%positive; 2%positive; 3%positive] "MeatBall" Hchain)
            DogHandler _ eq_refl).
  apply list_elem_of_further, list_elem_of_further, list_elem_of_here.
Defined.

(** ** Heaps whose links stay inside *)

Lemma closed_lookup σ p o q :
  closed σ → σ !! p = Some o → next_handler_ o = Some q → is_Some (σ !! q).
Proof.
  intros Hc Hp Hn. specialize (Hc p o Hp). cbn in Hc.
  unfold link_ok in Hc. rewrite Hn in Hc. by apply bool_decide_eq_true in Hc.
Qed.

Lemma closed_intro σ :
  (∀ p o q, σ !! p = Some o → next_handler_ o = Some q → is_Some (σ !! q)) →
  closed σ.
Proof.
  intros H p o Hp. cbn. unfold link_ok.
  destruct (next_handler_ o) as [q|] eqn:Hn; [|done].
  apply bool_decide_eq_true. by eapply H.
Qed.

Lemma valid_ptr_insert σ p o h :
  valid_ptr σ h → valid_ptr (<[p := o]> σ) h.
Proof.
  destruct h as [q|]; [|done]. cbn. intros Hq.
  destruct (decide (p = q)) as [->|Hne].
  - rewrite lookup_insert_eq. eauto.
  - by rewrite lookup_insert_ne.
Qed.

Lemma closed_insert σ p o :
  closed σ → valid_ptr σ (next_handler_ o) → closed (<[p := o]> σ).
Proof.
  intros Hc Hv. apply closed_intro. intros x ox q Hx Hn.
  apply (valid_ptr_insert σ p o (Some q)). cbn.
  destruct (decide (p = x)) as [->|Hne].
  - rewrite lookup_insert_eq in Hx. simplify_eq. by rewrite Hn in Hv.
  - rewrite lookup_insert_ne in Hx by done. by eapply closed_lookup.
Qed.

Lemma closed_make_shared c s p s' :
  make_shared c s = Done p s' → closed (heap s) → closed (heap s').
Proof.
  unfold make_shared. intros ? Hc. simplify_eq. cbn [heap].
  by apply closed_insert.
Qed.

Lemma closed_SetNext this handler s r s' :
  SetNext this handler s = Done r s' →
  closed (heap s) → valid_ptr (heap s) handler → closed (heap s').
Proof.
  intros Hrun Hc Hv. destruct (heap s !! this) as [o|] eqn:Hthis.
  - rewrite (SetNext_run _ _ _ _ Hthis) in Hrun. simplify_eq. cbn [heap].
    by apply closed_insert.
  - by rewrite SetNext_unallocated in Hrun.
Qed.

(** X4.  The operations of the program keep every successor link inside the
    heap.  Starting from a heap in which no handler points at a missing
    object, a handler built by [make_shared] and a link set by [SetNext] to
    [nullptr] or to an existing handler leave the heap in that condition, and
    so do the first four statements of [main].  Pointers that were valid
    remain valid. *)
Theorem heap_stays_closed s :
  closed (heap s) →
  (∀ c p s',
     make_shared c s = Done p s' →
     closed (heap s') ∧ ∀ h, valid_ptr (heap s) h → valid_ptr (heap s') h) ∧
  (∀ this handler r s',
     valid_ptr (heap s) handler →
     SetNext this handler s = Done r s' →
     closed (heap s') ∧ ∀ h, valid_ptr (heap s) h → valid_ptr (heap s') h) ∧
  (∀ handlers s', main_chain s = Done handlers s' → closed (heap s')).
Proof.
  intros Hc. split; [|split].
  - intros c p s' Hrun. split; [by eapply closed_make_shared|].
    intros h Hh. unfold make_shared in Hrun. simplify_eq. cbn [heap].
    by apply valid_ptr_insert.
  - intros this handler r s' Hv Hrun. split; [by eapply closed_SetNext|].
    intros h Hh. destruct (heap s !! this) as [o|] eqn:Hthis.
    + rewrite (SetNext_run _ _ _ _ Hthis) in Hrun. simplify_eq. cbn [heap].
      by apply valid_ptr_insert.
    + by rewrite SetNext_unallocated in Hrun.
  - intros handlers s' Hrun. unfold main_chain, bind in Hrun.
    destruct (make_shared MonkeyHandler s) as [monkey s1| |] eqn:H1; [|done..].
    destruct (make_shared SquirrelHandler s1) as [squirrel s2| |] eqn:H2;
      [|done..].
    destruct (make_shared DogHandler s2) as [dog s3| |] eqn:H3; [|done..].
    pose proof (closed_make_shared _ _ _ _ H1 Hc) as Hc1.
    pose proof (closed_make_shared _ _ _ _ H2 Hc1) as Hc2.
    pose proof (closed_make_shared _ _ _ _ H3 Hc2) as Hc3.
    assert (Hsq : valid_ptr (heap s3) (Some squirrel)).
    { unfold make_shared in H2, H3. simplify_eq. cbn [heap].
      apply valid_ptr_insert. cbn. rewrite lookup_insert_eq. eauto. }
    assert (Hdog : valid_ptr (heap s3) (Some dog)).
    { unfold make_shared in H3. simplify_eq. cbn [heap valid_ptr].
      rewrite lookup_insert_eq. eauto. }
    unfold fluent_SetNext, bind in Hrun.
    destruct (SetNext monkey (Some squirrel) s3) as [linked s4| |] eqn:H4;
      [|done..].
    pose proof (closed_SetNext _ _ _ _ _ H4 Hc3 Hsq) as Hc4.
    assert (Hdog4 : valid_ptr (heap s4) (Some dog)).
    { destruct (heap s3 !! monkey) as [o|] eqn:Hm.
      - rewrite (SetNext_run _ _ _ _ Hm) in H4. simplify_eq. cbn [heap].
        by apply valid_ptr_insert.
      - by rewrite SetNext_unallocated in H4. }
    destruct linked as [h|]; cbn [arrow] in Hrun; [|done].
    destruct (SetNext h (Some dog) s4) as [r5 s5| |] eqn:H5; [|done..].
    unfold ret in Hrun. simplify_eq.
    by eapply closed_SetNext.
Qed.

Lemma heap_stays_closed_witness :
  closed (heap initial) ∧
  ∀ handlers s', main_chain initial = Done handlers s' → closed (heap s').
Proof.
  assert (Hc : closed (heap initial)) by apply map_Forall_empty.
  split; [exact Hc|].
  exact (proj2 (proj2 (heap_stays_closed initial Hc))).
Defined.

Lemma Handle_no_fault fuel : ∀ s p request,
  closed (heap s) → is_Some (heap s !! p) → Handle fuel p request s ≠ Fault.
Proof.
  induction fuel as [|fuel IH]; intros s p request Hc [o Hp]; [done|].
  rewrite (Handle_unfold _ _ _ _ _ Hp).
  destruct (matches _ _); [done|].
  destruct (next_handler_ o) as [q|] eqn:Hn; [|done].
  apply IH; [done|]. by eapply closed_lookup.
Qed.

Lemma for_each_no_fault {A} σ (body : A → M unit) :
  (∀ x s, heap s = σ → body x s ≠ Fault) →
  (∀ x, keeps_heap (body x)) →
  ∀ v s, heap s = σ → for_each v body s ≠ Fault.
Proof.
  intros Hbody Hkeeps. induction v as [|x v IH]; intros s Hs; [done|].
  cbn [for_each]. unfold bind.
  destruct (body x s) as [[] s1| |] eqn:Hx; [|done|by apply Hbody in Hx].
  apply IH. by rewrite (Hkeeps _ _ _ _ Hx).
Qed.

(** X5.  On a heap whose links stay inside, calls through a pointer to an
    existing handler never go wrong: [Handle], [SetNext] and [ClientCode]
    return or, for [Handle] and [ClientCode] on a cycle, keep running, but
    they never touch something that is not a handler. *)
Theorem calls_never_fault s p :
  closed (heap s) →
  is_Some (heap s !! p) →
  (∀ fuel request, Handle fuel p request s ≠ Fault) ∧
  (∀ handler, SetNext p handler s ≠ Fault) ∧
  (∀ fuel, ClientCode fuel (Some p) s ≠ Fault).
Proof.
  intros Hc Hp. split; [|split].
  - intros fuel request. by apply Handle_no_fault.
  - intros handler. destruct Hp as [o Hp]. by rewrite (SetNext_run _ _ _ _ Hp).
  - intros fuel. unfold ClientCode.
    apply (for_each_no_fault (heap s)); [| |done].
    + intros f s0 Hs0. unfold bind, print. cbn [arrow heap cout].
      match goal with
      | |- context [Handle fuel p f ?s1] =>
          destruct (Handle fuel p f s1) as [result s2| |] eqn:Hrun
      end; [|done|].
      * by destruct (negb _).
      * exfalso. revert Hrun. apply Handle_no_fault; cbn [heap]; by rewrite Hs0.
    + intros f.
      repeat (apply keeps_heap_bind; [apply keeps_heap_print | intros _]).
      apply keeps_heap_bind; [apply keeps_heap_Handle|].
      intros result. destruct (negb _);
        repeat (apply keeps_heap_bind; [apply keeps_heap_print | intros _]);
        apply keeps_heap_print.
Qed.

Lemma calls_never_fault_witness :
  closed zoo ∧
  ∀ fuel request, Handle fuel 1%positive request (State zoo "") ≠ Fault.
Proof.
  assert (Hc : closed zoo).
  { unfold closed. apply (bool_decide_unpack _). vm_compute. exact I. }
  split; [exact Hc|].
  by refine (proj1 (calls_never_fault (State zoo "") 1%positive Hc _)).
Defined.

(** ** How [SetNext] calls compose *)

(** X6.  Calls of [SetNext] compose like assignments to one field per
    handler.  A second call on the same receiver replaces what the first
    installed; calls on two different receivers can be made in either order;
    and installing the successor that a handler already has changes
    nothing. *)
Theorem SetNext_laws s :
  (∀ h x y, (SetNext h x ;;; SetNext h y) s = SetNext h y s) ∧
  (∀ a b x y,
     a ≠ b →
     (SetNext a x ;;; SetNext b y ;;; ret tt) s
       = (SetNext b y ;;; SetNext a x ;;; ret tt) s) ∧
  (∀ h o,
     heap s !! h = Some o →
     SetNext h (next_handler_ o) s = Done (next_handler_ o) s).
Proof.
  split; [|split].
  - intros h x y. unfold bind at 1.
    destruct (heap s !! h) as [o|] eqn:Hh.
    + rewrite (SetNext_run _ _ _ _ Hh).
      rewrite (SetNext_run _ _ _ (Object (dyn_type o) x))
        by (cbn [heap]; apply lookup_insert_eq).
      rewrite (SetNext_run _ _ _ _ Hh). cbn [heap cout dyn_type].
      by rewrite insert_insert_eq.
    + by rewrite !SetNext_unallocated.
  - intros a b x y Hab. unfold bind.
    destruct (heap s !! a) as [oa|] eqn:Ha;
      destruct (heap s !! b) as [ob|] eqn:Hb.
    + rewrite (SetNext_run _ _ _ _ Ha), (SetNext_run _ _ _ _ Hb).
      rewrite (SetNext_run _ b _ ob)
        by (cbn [heap]; by rewrite lookup_insert_ne).
      rewrite (SetNext_run _ a _ oa)
        by (cbn [heap]; by rewrite lookup_insert_ne).
      cbn [heap cout]. unfold ret. by rewrite insert_insert_ne.
    + rewrite (SetNext_run _ _ _ _ Ha), (SetNext_unallocated _ _ _ Hb).
      rewrite SetNext_unallocated; [done|].
      cbn [heap]. by rewrite lookup_insert_ne.
    + rewrite (SetNext_unallocated _ _ _ Ha), (SetNext_run _ _ _ _ Hb).
      rewrite SetNext_unallocated; [done|].
      cbn [heap]. by rewrite lookup_insert_ne.
    + by rewrite (SetNext_unallocated _ _ _ Ha), (SetNext_unallocated _ _ _ Hb).
  - intros h o Hh. rewrite (SetNext_run _ _ _ _ Hh).
    destruct o as [c n]; cbn [dyn_type next_handler_].
    rewrite insert_id by done. by destruct s.
Qed.

Lemma SetNext_laws_witness :
  1%positive ≠ 2%positive ∧
  (SetNext 1%positive (Some 3%positive) ;;;
   SetNext 2%positive None ;;; ret tt) (State zoo "")
  = (SetNext 2%positive None ;;;
     SetNext 1%positive (Some 3%positive) ;;; ret tt) (State zoo "").
Proof.
  assert (Hne : 1%positive ≠ 2%positive) by discriminate.
  split; [exact Hne|].
  exact (proj1 (proj2 (SetNext_laws (State zoo ""))) 1%positive 2%positive
           (Some 3%positive) None Hne).
Defined.

(** ** Relinking a chain *)

Lemma reaches_frame σ σ' p l q :
  reaches σ p l q → (∀ x, x ∈ l → σ' !! x = σ !! x) → reaches σ' p l q.
Proof.
  induction 1 as [p | p o p' l q Hp Hn Hl IH]; intros Hsame;
    [apply reaches_here|].
  eapply reaches_step; [|done|].
  - rewrite Hsame; [done | apply list_elem_of_here].
  - apply IH. intros x Hx. apply Hsame. by apply list_elem_of_further.
Qed.

Lemma chain_frame σ σ' p l :
  chain σ p l → (∀ x, x ∈ l → σ' !! x = σ !! x) → chain σ' p l.
Proof.
  induction 1 as [p o Hp Hn | p o q l Hp Hn Hl IH]; intros Hsame.
  - eapply chain_end; [|done]. rewrite Hsame; [done | apply list_elem_of_here].
  - eapply chain_next; [|done|].
    + rewrite Hsame; [done | apply list_elem_of_here].
    + apply IH. intros x Hx. apply Hsame. by apply list_elem_of_further.
Qed.

Lemma classes_unfold σ x l :
  classes σ (x :: l) =
    match σ !! x with
    | Some o => dyn_type o :: classes σ l
    | None => classes σ l
    end.
Proof. unfold classes. cbn [omap list_omap]. by destruct (σ !! x). Qed.

(** Replacing a link changes no class. *)
Lemma classes_relinked σ t o handler l :
  σ !! t = Some o →
  classes (<[t := Object (dyn_type o) handler]> σ) l = classes σ l.
Proof.
  intros Ht. induction l as [|x l IH]; [done|].
  rewrite !classes_unfold, IH.
  destruct (decide (t = x)) as [->|Hne].
  - by rewrite lookup_insert_eq, Ht.
  - by rewrite lookup_insert_ne.
Qed.

(** X7.  Relinking in the middle of a chain.  Let [t] be a handler of the
    chain from [p], and let [handler] be [nullptr] or the entry point of a
    chain [tail] that does not contain [t] (so that no cycle arises).  After
    [t->SetNext(handler)] the chain from [p] is the old chain up to [t]
    followed by [tail]; what was behind [t] is cut off.  No handler changes
    class, and [Handle] entered at [p] answers with the first match of the
    new sequence. *)
Theorem SetNext_relink s p before t after handler tail :
  chain (heap s) p (before ++ t :: after) →
  match handler with
  | Some n => chain (heap s) n tail
  | None => tail = []
  end →
  t ∉ tail →
  ∃ s',
    SetNext t handler s = Done handler s' ∧
    chain (heap s') p (before ++ t :: tail) ∧
    classes (heap s') (before ++ t :: tail)
      = classes (heap s) (before ++ t :: tail) ∧
    ∀ request fuel,
      length (before ++ t :: tail) ≤ fuel →
      Handle fuel p request s' =
        Done (dispatch (classes (heap s) (before ++ t :: tail)) request) s'.
Proof.
  intros Hchain Htail Hfresh.
  destruct (chain_allocated _ _ _ Hchain t) as [o Ht].
  { apply elem_of_app. right. apply list_elem_of_here. }
  assert (Hbefore : t ∉ before).
  { pose proof (chain_NoDup _ _ _ Hchain) as Hnd.
    apply NoDup_app in Hnd as (_ & Hdisj & _).
    intros Hin. apply (Hdisj t Hin). apply list_elem_of_here. }
  eexists. split; [by apply SetNext_run|]. cbn [heap].
  set (σ' := <[t := Object (dyn_type o) handler]> (heap s)).
  assert (Hnew : chain σ' p (before ++ t :: tail)).
  { apply (reaches_chain _ _ _ t).
    - apply (reaches_frame (heap s)); [by eapply chain_reaches|].
      intros x Hx. unfold σ'. rewrite lookup_insert_ne; [done|].
      by intros ->.
    - destruct handler as [n|].
      + eapply chain_next; [apply lookup_insert_eq | done |].
        apply (chain_frame (heap s)); [done|].
        intros x Hx. unfold σ'. rewrite lookup_insert_ne; [done|].
        by intros ->.
      + subst tail. eapply chain_end; [apply lookup_insert_eq | done]. }
  split; [done|]. split; [by apply classes_relinked|].
  intros request fuel Hfuel.
  rewrite <- (classes_relinked (heap s) t o handler) by done.
  by apply (Handle_chain_returns (State σ' (cout s))).
Qed.

Lemma SetNext_relink_witness :
  chain zoo 1%positive ([] ++ 1%positive :: [2%positive; 3%positive]) ∧
  chain zoo 3%positive [3%positive] ∧
  ∃ s',
    SetNext 1%positive (Some 3%positive) (State zoo "")
      = Done (Some 3%positive) s' ∧
    chain (heap s') 1%positive [1%positive; 3%positive] ∧
    Handle 2 1%positive "Nut" s' = Done unhandled s'.
Proof.
  assert (Hchain : chain zoo 1%positive
                     ([] ++ 1%positive :: [2%positive; 3%positive])).
  { apply (walk_chain 3). reflexivity. }
  assert (Htail : chain zoo 3%positive [3%positive]).
  { apply (walk_chain 1). reflexivity. }
  assert (Hfresh : 1%positive ∉ [3%positive]).
  { intros Hin. apply list_elem_of_singleton in Hin. discriminate. }
  split; [exact Hchain|]. split; [exact Htail|].
  destruct (SetNext_relink (State zoo "") 1%positive [] 1%positive
              [2%positive; 3%positive] (Some 3%positive) [3%positive]
              Hchain Htail Hfresh) as (s' & Hset & Hnew & _ & Hrun).
  exists s'. split; [exact Hset|]. split; [exact Hnew|].
  exact (Hrun "Nut" 2 (le_n 2)).
Defined.

(** ** The client *)

Lemma append_assoc (a b c : string) : (a +:+ b) +:+ c = a +:+ (b +:+ c).
Proof.
  induction a as [|x a IH]; [done|].
  change (String x ((a +:+ b) +:+ c) = String x (a +:+ (b +:+ c))).
  by f_equal.
Qed.

Lemma append_nil_r (a : string) : a +:+ "" = a.
Proof.
  induction a as [|x a IH]; [done|].
  change (String x (a +:+ "") = String x a). by f_equal.
Qed.

Lemma ClientCode_serve fuel handler :
  ClientCode fuel handler = for_each food (serve fuel handler).
Proof. reflexivity. Qed.

(** One round of the loop on a chain. *)
Lemma serve_run fuel p l σ out f :
  chain σ p l → length l ≤ fuel →
  serve fuel (Some p) f (State σ out)
    = Done tt (State σ (out +:+ answer (classes σ l) f)).
Proof.
  intros Hl Hfuel. unfold serve, bind, print. cbn [arrow heap cout].
  rewrite (Handle_chain_returns _ _ l) by done. cbn [heap cout].
  unfold answer. destruct (empty_string _); cbn [negb heap cout];
    by rewrite !append_assoc.
Qed.

Lemma for_each_serve fuel p l σ :
  chain σ p l → length l ≤ fuel →
  ∀ v out,
    for_each v (serve fuel (Some p)) (State σ out)
      = Done tt (State σ (out +:+ report (classes σ l) v)).
Proof.
  intros Hl Hfuel. induction v as [|f v IH]; intros out.
  - cbn. unfold ret. by rewrite append_nil_r.
  - cbn [for_each report]. unfold bind.
    rewrite (serve_run _ _ l) by done. by rewrite IH, append_assoc.
Qed.

Lemma ClientCode_run fuel p l σ out :
  chain σ p l → length l ≤ fuel →
  ClientCode fuel (Some p) (State σ out)
    = Done tt (State σ (out +:+ report (classes σ l) food)).
Proof. intros Hl Hfuel. rewrite ClientCode_serve. by apply for_each_serve. Qed.

(** X8.  [ClientCode] on a chain: the three items are offered in the order
    Nut, Banana, Cup of coffee; for each, the question is printed and then
    either the answer of the first handler of the chain that matches, or the
    line saying that the item was left untouched, which happens exactly when
    no handler of the chain matches.  The call returns, adds this text to
    what was printed before and leaves the heap as it was. *)
Theorem ClientCode_report s p l fuel :
  chain (heap s) p l →
  length l ≤ fuel →
  ClientCode fuel (Some p) s =
    Done tt (State (heap s)
               (cout s +:+ answer (classes (heap s) l) "Nut"
                       +:+ answer (classes (heap s) l) "Banana"
                       +:+ answer (classes (heap s) l) "Cup of coffee")) ∧
  ∀ f,
    (∀ c, c ∈ classes (heap s) l → matches c f = true →
       answer (classes (heap s) l) f =
         "Client: Who wants a " +:+ f +:+ "?" +:+ LF +:+
         "  " +:+ description c f) ∧
    ((∀ c, c ∈ classes (heap s) l → matches c f = false) ↔
       answer (classes (heap s) l) f =
         "Client: Who wants a " +:+ f +:+ "?" +:+ LF +:+
         "  " +:+ f +:+ " was left untouched." +:+ LF).
Proof.
  intros Hl Hfuel. split.
  - destruct s as [σ out]. cbn [heap cout] in *.
    rewrite (ClientCode_run _ _ l) by done. cbn [report food].
    by rewrite append_nil_r.
  - intros f. set (cs := classes (heap s) l). split.
    + intros c Hc Hm. unfold answer.
      rewrite (dispatch_member _ _ _ Hc Hm).
      pose proof (description_nonempty _ _ Hm) as Hne.
      destruct (description c f); [done | reflexivity].
    + unfold answer. split.
      * intros Hno.
        destruct (dispatch_cases cs f) as [(c & Hc & Hm & _) | [_ ->]];
          [|done].
        by rewrite (Hno c Hc) in Hm.
      * intros Heq c Hc.
        destruct (matches c f) eqn:Hm; [exfalso | done].
        rewrite (dispatch_member _ _ _ Hc Hm) in Heq.
        apply matches_literal in Hm.
        destruct c; cbn [literal] in Hm; simplify_eq;
          vm_compute in Heq; discriminate Heq.
Qed.

Lemma ClientCode_report_witness :
  chain zoo 2%positive [2%positive; 3%positive] ∧
  ClientCode 2 (Some 2%positive) (State zoo "") =
    Done tt (State zoo
      ("Client: Who wants a Nut?" +:+ LF +:+
       "  Squirrel: I'll eat the Nut." +:+ LF +:+
       "Client: Who wants a Banana?" +:+ LF +:+
       "  Banana was left untouched." +:+ LF +:+
       "Client: Who wants a Cup of coffee?" +:+ LF +:+
       "  Cup of coffee was left untouched." +:+ LF)).
Proof.
  assert (Hchain : chain zoo 2%positive [2%positive; 3%positive]).
  { apply (walk_chain 2). reflexivity. }
  split; [exact Hchain|].
  exact (proj1 (ClientCode_report (State zoo "") 2%positive
                  [2%positive; 3%positive] 2 Hchain (le_n 2))).
Defined.

(** ** The whole program *)

(** The first four statements of [main], from any state. *)
Lemma main_chain_run s :
  ∃ monkey squirrel dog σ',
    main_chain s = Done (monkey, squirrel, dog) (State σ' (cout s)) ∧
    (heap s !! monkey = None ∧ heap s !! squirrel = None ∧
     heap s !! dog = None) ∧
    (monkey ≠ squirrel ∧ monkey ≠ dog ∧ squirrel ≠ dog) ∧
    σ' !! monkey = Some (Object MonkeyHandler (Some squirrel)) ∧
    σ' !! squirrel = Some (Object SquirrelHandler (Some dog)) ∧
    σ' !! dog = Some (Object DogHandler None) ∧
    (∀ q, q ≠ monkey → q ≠ squirrel → q ≠ dog → σ' !! q = heap s !! q).
Proof.
  set (p1 := fresh (dom (heap s))).
  set (σ1 := <[p1 := Object MonkeyHandler None]> (heap s)).
  set (p2 := fresh (dom σ1)).
  set (σ2 := <[p2 := Object SquirrelHandler None]> σ1).
  set (p3 := fresh (dom σ2)).
  set (σ3 := <[p3 := Object DogHandler None]> σ2).
  assert (H1 : heap s !! p1 = None) by apply not_elem_of_dom, is_fresh.
  assert (H2 : σ1 !! p2 = None) by apply not_elem_of_dom, is_fresh.
  assert (H3 : σ2 !! p3 = None) by apply not_elem_of_dom, is_fresh.
  assert (H12 : p1 ≠ p2).
  { intros Heq. unfold σ1 in H2. by rewrite <- Heq, lookup_insert_eq in H2. }
  assert (H23 : p2 ≠ p3).
  { intros Heq. unfold σ2 in H3. by rewrite <- Heq, lookup_insert_eq in H3. }
  assert (H13 : p1 ≠ p3).
  { intros Heq. unfold σ2, σ1 in H3.
    by rewrite <- Heq, lookup_insert_ne, lookup_insert_eq in H3 by done. }
  assert (Hm3 : σ3 !! p1 = Some (Object MonkeyHandler None)).
  { unfold σ3, σ2, σ1.
    by rewrite !lookup_insert_ne, lookup_insert_eq by done. }
  set (σ4 := <[p1 := Object MonkeyHandler (Some p2)]> σ3).
  assert (Hs4 : σ4 !! p2 = Some (Object SquirrelHandler None)).
  { unfold σ4, σ3, σ2.
    by rewrite !lookup_insert_ne, lookup_insert_eq by done. }
  set (σ5 := <[p2 := Object SquirrelHandler (Some p3)]> σ4).
  exists p1, p2, p3, σ5. split; [|split; [|split; [|split; [|split; [|split]]]]].
  - unfold main_chain, bind, make_shared. cbn [heap cout].
    fold p1. fold σ1. fold p2. fold σ2. fold p3. fold σ3.
    unfold fluent_SetNext, bind.
    rewrite (SetNext_run _ _ _ (Object MonkeyHandler None)) by done.
    cbn [arrow heap cout dyn_type]. fold σ4.
    rewrite (SetNext_run _ _ _ (Object SquirrelHandler None)) by done.
    done.
  - split; [done|]. split.
    + unfold σ1 in H2. by rewrite lookup_insert_ne in H2 by done.
    + unfold σ2, σ1 in H3. by rewrite !lookup_insert_ne in H3 by done.
  - done.
  - unfold σ5, σ4. by rewrite lookup_insert_ne, lookup_insert_eq by done.
  - unfold σ5. by rewrite lookup_insert_eq.
  - unfold σ5, σ4, σ3. by rewrite !lookup_insert_ne, lookup_insert_eq by done.
  - intros q Hq1 Hq2 Hq3. unfold σ5, σ4, σ3, σ2, σ1.
    by rewrite !lookup_insert_ne by done.
Qed.

(** X9.  The whole program, from any state and with room for three nested
    calls: [main] returns 0; it builds three handlers at addresses that were
    free, Monkey linked to Squirrel linked to Dog, and touches no object that
    existed; and it adds to the output the two headings, each followed by the
    report of the client, first entered at Monkey and then at Squirrel. *)
Theorem main_run s fuel :
  3 ≤ fuel →
  ∃ monkey squirrel dog s',
    main fuel s = Done 0%Z s' ∧
    cout s' = cout s +:+ main_text ∧
    (heap s !! monkey = None ∧ heap s !! squirrel = None ∧
     heap s !! dog = None) ∧
    (monkey ≠ squirrel ∧ monkey ≠ dog ∧ squirrel ≠ dog) ∧
    heap s' !! monkey = Some (Object MonkeyHandler (Some squirrel)) ∧
    heap s' !! squirrel = Some (Object SquirrelHandler (Some dog)) ∧
    heap s' !! dog = Some (Object DogHandler None) ∧
    (∀ q, q ≠ monkey → q ≠ squirrel → q ≠ dog →
       heap s' !! q = heap s !! q).
Proof.
  intros Hfuel.
  destruct (main_chain_run s) as
    (monkey & squirrel & dog & σ' & Hrun & Hfree & Hne & Hm & Hs & Hd & Hrest).
  assert (Hdog : chain σ' dog [dog]) by (by eapply chain_end).
  assert (Hsq : chain σ' squirrel [squirrel; dog]) by (by eapply chain_next).
  assert (Hmo : chain σ' monkey [monkey; squirrel; dog])
    by (by eapply chain_next).
  assert (Hcs : classes σ' [squirrel; dog] = [SquirrelHandler; DogHandler]).
  { by rewrite (classes_cons _ _ _ _ Hs), (classes_cons _ _ _ _ Hd). }
  assert (Hcm : classes σ' [monkey; squirrel; dog]
                = [MonkeyHandler; SquirrelHandler; DogHandler]).
  { by rewrite (classes_cons _ _ _ _ Hm), Hcs. }
  exists monkey, squirrel, dog. eexists. split.
  - unfold main, bind at 1. rewrite Hrun. unfold bind, print.
    cbn [heap cout].
    rewrite (ClientCode_run _ _ [monkey; squirrel; dog]) by (cbn; done || lia).
    cbn [heap cout].
    rewrite (ClientCode_run _ _ [squirrel; dog]) by (cbn; done || lia).
    rewrite Hcm, Hcs. reflexivity.
  - cbn [heap cout]. split; [|done].
    unfold main_text. by rewrite !append_assoc.
Qed.

Lemma main_run_witness :
  3 ≤ 3 ∧
  ∃ s', main 3 initial = Done 0%Z s' ∧ cout s' = cout initial +:+ main_text.
Proof.
  split; [apply le_n|].
  destruct (main_run initial 3 (le_n 3))
    as (monkey & squirrel & dog & s' & Hrun & Hout & _).
  exists s'. split; [exact Hrun | exact Hout].
Defined.

(** ** When the calls return *)

(** X10.  A call of [Handle] that returns has reached a decision: either the
    request went past handlers that do not match to a handler that matches,
    and the result is the description of that handler, or it went past every
    handler of a chain that ends at [nullptr], none of which matches, and the
    result is the empty string.  In both cases one nested call was made per
    handler visited. *)
Theorem Handle_returns_inv s fuel p request result s' :
  Handle fuel p request s = Done result s' →
  (∃ l q oq,
     reaches (heap s) p l q ∧ length l < fuel ∧
     (∀ x, x ∈ l → handler_matches (heap s) x request = false) ∧
     heap s !! q = Some oq ∧ matches (dyn_type oq) request = true ∧
     result = description (dyn_type oq) request) ∨
  (∃ l,
     chain (heap s) p l ∧ length l ≤ fuel ∧
     (∀ x, x ∈ l → handler_matches (heap s) x request = false) ∧
     result = unhandled).
Proof.
  revert p. induction fuel as [|fuel IH]; intros p Hrun; [done|].
  destruct (heap s !! p) as [o|] eqn:Hp;
    [|by rewrite Handle_unallocated in Hrun].
  rewrite (Handle_unfold _ _ _ _ _ Hp) in Hrun.
  destruct (matches (dyn_type o) request) eqn:Hm.
  - left. exists [], p, o. simplify_eq.
    split; [apply reaches_here|]. split; [cbn; lia|].
    split; [|done]. intros x Hx. by apply elem_of_nil in Hx.
  - assert (Hpm : handler_matches (heap s) p request = false)
      by by rewrite (handler_matches_lookup _ _ _ _ Hp).
    destruct (next_handler_ o) as [next|] eqn:Hn.
    + destruct (IH next Hrun) as
        [(l & q & oq & Hl & Hlen & Hno & Hq & Hmq & Hres)
        | (l & Hl & Hlen & Hno & Hres)].
      * left. exists (p :: l), q, oq.
        split; [by eapply reaches_step|]. split; [cbn; lia|].
        split; [|done].
        intros x [-> | Hx]%elem_of_cons; [done | by apply Hno].
      * right. exists (p :: l).
        split; [by eapply chain_next|]. split; [cbn; lia|].
        split; [|done].
        intros x [-> | Hx]%elem_of_cons; [done | by apply Hno].
    + right. exists [p]. simplify_eq.
      split; [by eapply chain_end|]. split; [cbn; lia|].
      split; [|done].
      intros x Hx. by apply list_elem_of_singleton in Hx as ->.
Qed.

Lemma Handle_returns_inv_witness :
  Handle 3 1%positive "Cup of coffee" (State zoo "")
    = Done unhandled (State zoo "") ∧
  ((∃ l q oq,
      reaches zoo 1%positive l q ∧ length l < 3 ∧
      (∀ x, x ∈ l → handler_matches zoo x "Cup of coffee" = false) ∧
      zoo !! q = Some oq ∧ matches (dyn_type oq) "Cup of coffee" = true ∧
      unhandled = description (dyn_type oq) "Cup of coffee") ∨
   (∃ l,
      chain zoo 1%positive l ∧ length l ≤ 3 ∧
      (∀ x, x ∈ l → handler_matches zoo x "Cup of coffee" = false) ∧
      unhandled = unhandled)).
Proof.
  assert (Hrun : Handle 3 1%positive "Cup of coffee" (State zoo "")
                   = Done unhandled (State zoo "")) by reflexivity.
  split; [exact Hrun|].
  exact (Handle_returns_inv (State zoo "") 3 1%positive "Cup of coffee"
           unhandled (State zoo "") Hrun).
Defined.

Lemma serve_inv fuel p f s s' :
  serve fuel (Some p) f s = Done tt s' →
  heap s' = heap s ∧ ∃ result, Handle fuel p f s = Done result s.
Proof.
  unfold serve, bind, print. cbn [arrow heap cout]. intros Hrun.
  match type of Hrun with
  | context [Handle fuel p f ?s1] =>
      destruct (Handle fuel p f s1) as [result s2| |] eqn:Hcall; [|done..];
      pose proof (Handle_reads _ _ _ _ _ _ Hcall) as ->;
      assert (Hback : Handle fuel p f s = Done result s)
        by (by apply (Handle_heap_only _ _ _ s1))
  end.
  split; [|eauto].
  destruct (negb _); cbn [heap cout] in Hrun; by simplify_eq.
Qed.

(** No class has "Cup of coffee" as its literal. *)
Lemma coffee_unmatched c : matches c "Cup of coffee" = false.
Proof. by destruct c. Qed.

(** X11.  [ClientCode] returns only when the chain behind its entry point
    ends: the last item, "Cup of coffee", is the literal of no class, so it
    is handed on until a handler without successor is reached.  If the call
    returns, the handlers reachable from the entry point form a chain no
    longer than the depth allowed, and the text added to the output is the
    report for that chain; on a cycle the call does not return. *)
Theorem ClientCode_returns_inv s fuel p s' :
  ClientCode fuel (Some p) s = Done tt s' →
  ∃ l,
    chain (heap s) p l ∧ length l ≤ fuel ∧
    s' = State (heap s) (cout s +:+ report (classes (heap s) l) food).
Proof.
  intros Hrun. pose proof Hrun as Hloop.
  rewrite ClientCode_serve in Hloop. unfold food in Hloop.
  cbn [for_each] in Hloop. unfold bind in Hloop.
  destruct (serve fuel (Some p) "Nut" s) as [[] s1| |] eqn:H1; [|done..].
  destruct (serve fuel (Some p) "Banana" s1) as [[] s2| |] eqn:H2; [|done..].
  destruct (serve fuel (Some p) "Cup of coffee" s2) as [[] s3| |] eqn:H3;
    [|done..].
  apply serve_inv in H1 as [Hh1 _]. apply serve_inv in H2 as [Hh2 _].
  apply serve_inv in H3 as [_ [result Hcoffee]].
  apply Handle_returns_inv in Hcoffee as
    [(l & q & oq & _ & _ & _ & _ & Hm & _) | (l & Hl & Hlen & _ & _)].
  { by rewrite coffee_unmatched in Hm. }
  rewrite Hh2, Hh1 in Hl. exists l. split; [done|]. split; [done|].
  destruct s as [σ out]. cbn [heap cout] in *.
  rewrite (ClientCode_run _ _ l) in Hrun by done. by simplify_eq.
Qed.

Lemma ClientCode_returns_inv_witness :
  ClientCode 3 (Some 1%positive) (State zoo "")
    = Done tt (State zoo
                 (report [MonkeyHandler; SquirrelHandler; DogHandler] food)) ∧
  ∃ l, chain zoo 1%positive l ∧ length l ≤ 3.
Proof.
  assert (Hrun : ClientCode 3 (Some 1%positive) (State zoo "")
            = Done tt (State zoo
                (report [MonkeyHandler; SquirrelHandler; DogHandler] food)))
    by (vm_compute; reflexivity).
  split; [exact Hrun|].
  destruct (ClientCode_returns_inv _ _ _ _ Hrun) as (l & Hl & Hlen & _).
  exists l. split; [exact Hl | exact Hlen].
Defined.
